(** * experimental_ocr: response normalisation and page orchestration

    A shallow embedding of [runpod-deploy/ocr.py] (and of the copy of
    [parse_page_range] in [runpod-deploy/ocr_pdf.py]) together with the
    properties its specification states about it.

    Modelling conventions.
    - A Python [str] is a list of Unicode code points ([char := N]).
    - A Python exception is a value of [exn]; a computation that may raise
      lives in [res].  [Diverged] is not an exception: it is the outcome of a
      fuelled definition that ran out of fuel, it cannot be caught, and the
      lemmas below show that it never occurs.
    - Library functions ([str.strip], [str.split], [int], [range], [sorted],
      [re], [json.loads]) are modelled after CPython.  Interpreter resource
      limits (the recursion depth, the cap on the number of digits of an
      integer literal) are not modelled. *)

From Stdlib Require Import ZArith NArith List Ascii String Lia Bool.
From stdpp Require Import base gmap sorting pretty.
Import ListNotations.

(** ** Python primitives *)

Module Py.

Definition char := N.
Definition str := list char.
#[local] Open Scope N_scope.

(** The code point of an ASCII character, and the [str] of a literal. *)
Definition chr (a : ascii) : char := N_of_ascii a.
Definition lit (s : string) : str := map chr (list_ascii_of_string s).
Arguments chr : simpl never.
Arguments lit : simpl never.

(** The line feed. *)
Definition LF : char := 10.

(** [c == 'a'] *)
Definition eqc (a : ascii) (c : char) : bool := N.eqb c (chr a).

Inductive exn := JSONDecodeError | ValueError | KeyError | AttributeError | TypeError.

Inductive res (A : Type) :=
| Ok (a : A)
| Raise (e : exn)
| Diverged.
Arguments Ok {A} a.
Arguments Raise {A} e.
Arguments Diverged {A}.

#[global] Instance res_ret : MRet res := fun _ a => Ok a.
#[global] Instance res_bind : MBind res := fun _ _ k m =>
  match m with
  | Ok a => k a
  | Raise e => Raise e
  | Diverged => Diverged
  end.

#[global] Instance res_fmap : FMap res := fun _ _ f m =>
  match m with
  | Ok a => Ok (f a)
  | Raise e => Raise e
  | Diverged => Diverged
  end.

Definition exn_eqb (e1 e2 : exn) : bool :=
  match e1, e2 with
  | JSONDecodeError, JSONDecodeError | ValueError, ValueError
  | KeyError, KeyError | AttributeError, AttributeError
  | TypeError, TypeError => true
  | _, _ => false
  end.

(** [try: body  except e: handler] *)
Definition try_except {A} (body : res A) (e : exn) (handler : res A) : res A :=
  match body with
  | Raise e' => if exn_eqb e' e then handler else Raise e'
  | r => r
  end.

(** *** Strings *)

(** [str.isspace] on one character (the white space of CPython's [str]). *)
Definition isspace (c : char) : bool :=
  ((9 <=? c) && (c <=? 13)) || ((28 <=? c) && (c <=? 32))
  || (c =? 133) || (c =? 160) || (c =? 5760)
  || ((8192 <=? c) && (c <=? 8202))
  || (c =? 8232) || (c =? 8233) || (c =? 8239) || (c =? 8287) || (c =? 12288).

(** White space taken off the left, the right, both ends. *)
Fixpoint lstrip_by (space : char -> bool) (s : str) : str :=
  match s with
  | c :: s' => if space c then lstrip_by space s' else s
  | [] => []
  end.

Definition rstrip_by (space : char -> bool) (s : str) : str :=
  rev (lstrip_by space (rev s)).

Definition strip_by (space : char -> bool) (s : str) : str :=
  rstrip_by space (lstrip_by space s).

(** [s.strip()] *)
Definition strip (s : str) : str := strip_by isspace s.

(** [s.startswith(p)] *)
Fixpoint startswith (p s : str) : bool :=
  match p, s with
  | [], _ => true
  | a :: p', b :: s' => (a =? b) && startswith p' s'
  | _ :: _, [] => false
  end.

(** [sep in s], for a one-character [sep] *)
Definition contains (sep : char) (s : str) : bool := existsb (N.eqb sep) s.

(** [s.split(sep)], for a one-character [sep]: never empty. *)
Fixpoint split (sep : char) (s : str) : list str :=
  match s with
  | [] => [[]]
  | c :: s' =>
      if c =? sep then [] :: split sep s'
      else match split sep s' with
           | h :: t => (c :: h) :: t
           | [] => [[c]]
           end
  end.

(** [s.split(sep, 1)]: at most one cut, at the first [sep]. *)
Fixpoint split1 (sep : char) (s : str) : list str :=
  match s with
  | [] => [[]]
  | c :: s' =>
      if c =? sep then [[]; s']
      else match split1 sep s' with
           | h :: t => (c :: h) :: t
           | [] => [[c]]
           end
  end.

(** [sep.join(parts)] *)
Fixpoint join (sep : str) (parts : list str) : str :=
  match parts with
  | [] => []
  | [p] => p
  | p :: ps => p ++ sep ++ join sep ps
  end.

(** *** Integers *)

Definition is_digit (c : char) : bool := (48 <=? c) && (c <=? 57).
Definition digit_value (c : char) : Z := Z.of_N (c - 48).

(** The digit zero of every decimal script, each followed by its nine other
    digits (Unicode 14, the character database of CPython 3.11). *)
Definition decimal_zeros : list N :=
  [48; 1632; 1776; 1984; 2406; 2534; 2662; 2790; 2918; 3046; 3174; 3302;
   3430; 3558; 3664; 3792; 3872; 4160; 4240; 6112; 6160; 6470; 6608; 6784;
   6800; 6992; 7088; 7232; 7248; 42528; 43216; 43264; 43472; 43504; 43600;
   44016; 65296; 66720; 68912; 69734; 69872; 69942; 70096; 70384; 70736;
   70864; 71248; 71360; 71472; 71904; 72016; 72784; 73040; 73120; 92768;
   92864; 93008; 120782; 120792; 120802; 120812; 120822; 123200; 123632;
   125264; 130032].

(** The decimal value of a character, when it is a decimal digit. *)
Definition to_decimal (c : char) : option Z :=
  match List.find (fun zero => (zero <=? c) && (c <=? zero + 9)) decimal_zeros with
  | Some zero => Some (Z.of_N (c - zero))
  | None => None
  end.

(** Decimal digits, single underscores allowed between two digits.
    [seen] tells whether the previous character was a digit. *)
Fixpoint digits (acc : Z) (seen : bool) (s : str) : option Z :=
  match s with
  | [] => if seen then Some acc else None
  | c :: s' =>
      match to_decimal c with
      | Some d => digits (10 * acc + d)%Z true s'
      | None =>
          if eqc "_" c && seen then digits acc false s'
          else None
      end
  end.

(** The white space that [int] skips: that of [str] but for the four
    separators 28 to 31. *)
Definition int_space (c : char) : bool :=
  isspace c && negb ((28 <=? c) && (c <=? 31)).

(** [int(s)] in base ten: surrounding white space, an optional sign, digits. *)
Definition int (s : str) : res Z :=
  let t := strip_by int_space s in
  let v :=
    match t with
    | c :: t' =>
        if eqc "+" c then digits 0 false t'
        else if eqc "-" c then Z.opp <$> digits 0 false t'
        else digits 0 false t
    | [] => None
    end in
  match v with
  | Some z => Ok z
  | None => Raise ValueError
  end.

(** [list(range(a, b))] *)
Definition range (a b : Z) : list Z := seqZ a (b - a).

(** [sorted(pages)] for a set of integers *)
Definition sorted (pages : gset Z) : list Z := merge_sort Z.le (elements pages).

End Py.
Import Py.

(** ** Fill-zone normalisation ([ocr.py], lines 101-106) *)

Module Fill.

(** The character class [[.\-_]]. *)
Definition is_fill (c : char) : bool := eqc "." c || eqc "-" c || eqc "_" c.

(** Number of leading copies of [c] in [s]: what a greedy [\1{k,}] consumes. *)
Fixpoint run_length (c : char) (s : str) : nat :=
  match s with
  | d :: s' => if N.eqb d c then S (run_length c s') else 0
  | [] => 0
  end.

(** [_FILL_RE = re.compile(r'([.\-_])\1{3,}')] anchored at the head of [s]:
    the length of the match, if there is one. *)
Definition fill_match (s : str) : option nat :=
  match s with
  | c :: s' =>
      if is_fill c && (3 <=? run_length c s')
      then Some (S (run_length c s')) else None
  | [] => None
  end.

(** [_FILL_RE.sub(repl, s)]: scan from the left; at a match emit [repl] and
    resume after the match, otherwise copy one character.  [skip] counts the
    characters of the current match that are still to be consumed. *)
Fixpoint fill_sub (repl : str) (skip : nat) (s : str) : str :=
  match s with
  | [] => []
  | c :: s' =>
      match skip with
      | S k => fill_sub repl k s'
      | O =>
          match fill_match s with
          | Some (S k) => repl ++ fill_sub repl k s'
          | _ => c :: fill_sub repl 0 s'
          end
      end
  end.

Definition normalize_fill_zones (text : str) : str :=
  fill_sub (lit "___") 0 text.

(** *** The specification's reading: maximal runs *)

(** The maximal runs of equal characters of [s], left to right. *)
Fixpoint runs (s : str) : list (char * nat) :=
  match s with
  | [] => []
  | c :: s' =>
      match runs s' with
      | (d, n) :: rs => if N.eqb c d then (d, S n) :: rs else (c, 1) :: (d, n) :: rs
      | [] => [(c, 1)]
      end
  end.

(** A run is a fill zone when it has four or more fill characters. *)
Definition fill_zone (r : char * nat) : bool := is_fill (fst r) && (4 <=? snd r).

Definition collapse (r : char * nat) : str :=
  if fill_zone r then lit "___" else repeat (fst r) (snd r).

(** "Replace each maximal run of four or more identical fill characters with
    the literal [___]". *)
Definition normalize_spec (s : str) : str := flat_map collapse (runs s).

(** [s] contains four consecutive identical fill characters. *)
Definition has_fill_run (s : str) : Prop :=
  exists pre c post, is_fill c = true /\ s = pre ++ repeat c 4 ++ post.

(** A run that the normaliser turns into, or leaves as, underscores. *)
Definition underscored (r : char * nat) : bool := fill_zone r || eqc "_" (fst r).

(** No fill zone touches an underscore or another fill zone. *)
Fixpoint isolated (rs : list (char * nat)) : bool :=
  match rs with
  | r1 :: ((r2 :: _) as rs') =>
      negb (fill_zone r1 && underscored r2) && negb (underscored r1 && fill_zone r2) && isolated rs'
  | _ => true
  end.

(** The string that a list of runs stands for. *)
Definition expand (rs : list (char * nat)) : str :=
  flat_map (fun r => repeat (fst r) (snd r)) rs.

(** Runs are non-empty and neighbours differ: the runs are maximal. *)
Fixpoint maximal (rs : list (char * nat)) : Prop :=
  match rs with
  | [] => True
  | r :: rs' =>
      0 < snd r /\
      match rs' with [] => True | r' :: _ => fst r <> fst r' end /\
      maximal rs'
  end.

(** What a run becomes, as a run. *)
Definition collapse_run (r : char * nat) : char * nat :=
  if fill_zone r then (chr "_", 3) else r.

End Fill.


(** ** Page selection ([ocr.py], lines 83-96 and 311-316; the same function
    is repeated in [ocr_pdf.py], lines 23-36) *)

Module Pages.
#[local] Open Scope Z_scope.

(** One turn of the loop [for part in spec.split(",")]. *)
Definition parse_part (total : Z) (pages : gset Z) (part : str) : res (gset Z) :=
  let part := strip part in
  if contains (chr "-") part then
    match split1 (chr "-") part with
    | [start; end_] =>
        start ← int start;
        end_ ← int end_;
        Ok (pages ∪ list_to_set (range start (Z.min end_ total + 1)))
    | _ => Raise ValueError
    end
  else
    p ← int part;
    if (1 <=? p) && (p <=? total) then Ok ({[ p ]} ∪ pages) else Ok pages.

Fixpoint parse_parts (total : Z) (pages : gset Z) (parts : list str) : res (gset Z) :=
  match parts with
  | [] => Ok pages
  | part :: parts' =>
      pages' ← parse_part total pages part;
      parse_parts total pages' parts'
  end.

Definition parse_page_range (spec : str) (total : Z) : res (list Z) :=
  pages ← parse_parts total ∅ (split (chr ",") spec);
  Ok (sorted pages).

(** [main]: [parse_page_range(args.pages, total_pages) if args.pages
    else list(range(1, total_pages + 1))]; an absent and an empty
    [--pages] are both falsy. *)
Definition page_nums (pages_arg : option str) (total_pages : Z) : res (list Z) :=
  match pages_arg with
  | Some ((_ :: _) as spec) => parse_page_range spec total_pages
  | _ => Ok (range 1 (total_pages + 1))
  end.

(** *** The parsing rule as the specification words it (section 4.1) *)

(** What one token of the selector contributes: a hyphenated token, the
    inclusive range from its start to its end clamped to [total]; a plain
    integer, itself when it lies between 1 and [total]. *)
Definition contributes (total : Z) (token : str) (p : Z) : Prop :=
  if contains (chr "-") token then
    exists a b start end_,
      split1 (chr "-") token = [a; b]
      /\ int a = Ok start /\ int b = Ok end_
      /\ start <= p <= Z.min end_ total
  else int token = Ok p /\ 1 <= p <= total.

End Pages.

(** ** Stream aggregation ([ocr.py], lines 191-204) *)

Module Stream.

(** The fields of a streamed completion chunk that [ocr_image_base64] reads. *)
Record ChoiceDelta := { content : option str }.
Record Choice := { delta : ChoiceDelta; finish_reason : option str }.
Record ChatCompletionChunk := { choices : list Choice }.

(** What the function writes to [sys.stderr]. *)
Inductive stderr_line :=
| TruncationWarning (max_tokens : Z).

(** Truthiness of an optional string: present and not empty. *)
Definition truthy (o : option str) : option str :=
  match o with
  | Some ((_ :: _) as s) => Some s
  | _ => None
  end.

(** One turn of [for chunk in stream], on the pair [(parts, finish_reason)]. *)
Definition consume (st : list str * option str) (chunk : ChatCompletionChunk)
  : list str * option str :=
  match choices chunk with
  | [] => st
  | choice :: _ =>
      let parts :=
        match truthy (content (delta choice)) with
        | Some d => fst st ++ [d]
        | None => fst st
        end in
      let reason :=
        match truthy (finish_reason choice) with
        | Some r => Some r
        | None => snd st
        end in
      (parts, reason)
  end.

(** The part of [ocr_image_base64] after the request is sent: the lines
    written to [stderr] and the returned text. *)
Definition ocr_image_base64 (stream : list ChatCompletionChunk) (max_tokens : Z)
  : list stderr_line * str :=
  let '(parts, reason) := fold_left consume stream ([], None) in
  let warning :=
    if decide (reason = Some (lit "length"))
    then [TruncationWarning max_tokens] else [] in
  (warning, concat parts).

(** *** The StreamChunk of the data model (section 3) *)

(** The optional text delta and the optional terminal reason of a chunk. *)
Definition text_delta (chunk : ChatCompletionChunk) : option str :=
  match choices chunk with
  | choice :: _ => content (delta choice)
  | [] => None
  end.

Definition terminal_reason (chunk : ChatCompletionChunk) : option str :=
  match choices chunk with
  | choice :: _ => finish_reason choice
  | [] => None
  end.

(** The most recently observed terminal reason. *)
Definition last_reason (stream : list ChatCompletionChunk) : option str :=
  last (omap terminal_reason stream).

(** A terminal reason that is present is a word such as [stop] or [length],
    never the empty string. *)
Definition well_formed (stream : list ChatCompletionChunk) : Prop :=
  Forall (fun chunk => terminal_reason chunk <> Some []) stream.

End Stream.

(** ** JSON values and [json.loads] *)

Module Json.
#[local] Open Scope N_scope.
#[local] Set Warnings "-register-all".

Inductive json :=
| JNull
| JBool (b : bool)
| JInt (n : Z)
| JFloat (literal : str)      (* the double denoted by this literal *)
| JStr (s : str)
| JList (l : list json)
| JDict (d : list (str * json)). (* keys distinct, in insertion order *)

(** [k in d], [d.get(k)], [d[k]] and [d[k] = v] *)
Fixpoint dict_get (k : str) (d : list (str * json)) : option json :=
  match d with
  | [] => None
  | (k', v) :: d' => if decide (k' = k) then Some v else dict_get k d'
  end.

Definition dict_in (k : str) (d : list (str * json)) : bool :=
  match dict_get k d with Some _ => true | None => false end.

Definition dict_getitem (d : list (str * json)) (k : str) : res json :=
  match dict_get k d with
  | Some v => Ok v
  | None => Raise KeyError
  end.

Fixpoint dict_set (k : str) (v : json) (d : list (str * json)) : list (str * json) :=
  match d with
  | [] => [(k, v)]
  | (k', v') :: d' =>
      if decide (k' = k) then (k', v) :: d' else (k', v') :: dict_set k v d'
  end.

(** [dict(pairs)] *)
Definition dict_of_pairs (pairs : list (str * json)) : list (str * json) :=
  fold_left (fun d kv => dict_set (fst kv) (snd kv) d) pairs [].

(** *** The scanner, after CPython's [json.scanner] and [json.decoder] *)

Definition DQUOTE : char := 34.
Definition BACKSLASH : char := 92.

(** A text written with an apostrophe wherever it has a double quote. *)
Definition jtext (s : string) : str :=
  map (fun a => if Ascii.eqb a "'" then DQUOTE else chr a) (list_ascii_of_string s).

(** White space between tokens: space, tab, line feed, carriage return. *)
Definition json_ws (c : char) : bool := (c =? 32) || (c =? 9) || (c =? 10) || (c =? 13).

Fixpoint skip_ws (s : str) : str :=
  match s with
  | c :: s' => if json_ws c then skip_ws s' else s
  | [] => []
  end.

Definition hex_value (c : char) : option N :=
  if is_digit c then Some (c - 48)
  else if (97 <=? c) && (c <=? 102) then Some (c - 87)
  else if (65 <=? c) && (c <=? 70) then Some (c - 55)
  else None.

Definition hex4 (a b c d : char) : option N :=
  x ← hex_value a; y ← hex_value b; z ← hex_value c; w ← hex_value d;
  Some (((x * 16 + y) * 16 + z) * 16 + w).

Definition high_surrogate (u : N) : bool := (55296 <=? u) && (u <=? 56319).
Definition low_surrogate (u : N) : bool := (56320 <=? u) && (u <=? 57343).
Definition join_surrogates (hi lo : N) : N := 65536 + (hi - 55296) * 1024 + (lo - 56320).

Definition unescape (c : char) : option char :=
  if c =? DQUOTE then Some DQUOTE
  else if c =? BACKSLASH then Some BACKSLASH
  else if eqc "/" c then Some (chr "/")
  else if eqc "b" c then Some 8
  else if eqc "f" c then Some 12
  else if eqc "n" c then Some 10
  else if eqc "r" c then Some 13
  else if eqc "t" c then Some 9
  else None.

Definition push (c : char) (r : option (str * str)) : option (str * str) :=
  match r with
  | Some (v, rest) => Some (c :: v, rest)
  | None => None
  end.

(** [scanstring], strict, from just after the opening quote: the decoded
    string and what follows the closing quote. *)
Fixpoint scanstring (s : str) : option (str * str) :=
  match s with
  | [] => None
  | c :: s1 =>
      if c =? DQUOTE then Some ([], s1)
      else if c =? BACKSLASH then
        match s1 with
        | [] => None
        | e :: s2 =>
            if eqc "u" e then
              match s2 with
              | h1 :: h2 :: h3 :: h4 :: s3 =>
                  match hex4 h1 h2 h3 h4 with
                  | None => None
                  | Some u =>
                      match s3 with
                      | b :: e' :: s4 =>
                          if high_surrogate u && (b =? BACKSLASH) && eqc "u" e' then
                            match s4 with
                            | g1 :: g2 :: g3 :: g4 :: s5 =>
                                match hex4 g1 g2 g3 g4 with
                                | None => None
                                | Some u2 =>
                                    if low_surrogate u2
                                    then push (join_surrogates u u2) (scanstring s5)
                                    else push u (scanstring s3)
                                end
                            | _ => None
                            end
                          else push u (scanstring s3)
                      | _ => push u (scanstring s3)
                      end
                  end
              | _ => None
              end
            else
              match unescape e with
              | Some x => push x (scanstring s2)
              | None => None
              end
        end
      else if c <? 32 then None
      else push c (scanstring s1)
  end.

(** The leading decimal digits of [s] and the rest. *)
Fixpoint span_digits (s : str) : str * str :=
  match s with
  | c :: s' =>
      if is_digit c then let '(ds, r) := span_digits s' in (c :: ds, r)
      else ([], s)
  | [] => ([], [])
  end.

Fixpoint decimal (acc : Z) (ds : str) : Z :=
  match ds with
  | [] => acc
  | c :: ds' => decimal (10 * acc + digit_value c) ds'
  end.

(** The optional [.digits] after the integer part. *)
Definition match_frac (s : str) : str * str :=
  match s with
  | p :: ((d :: _) as s') =>
      if eqc "." p && is_digit d
      then let '(ds, r) := span_digits s' in (p :: ds, r)
      else ([], s)
  | _ => ([], s)
  end.

(** The optional exponent. *)
Definition match_exp (s : str) : str * str :=
  match s with
  | e :: s1 =>
      if eqc "e" e || eqc "E" e then
        let '(sign, s2) :=
          match s1 with
          | g :: ((_ :: _) as s2) =>
              if eqc "-" g || eqc "+" g then ([g], s2) else ([], s1)
          | _ => ([], s1)
          end in
        match span_digits s2 with
        | ((_ :: _) as ds, r) => (e :: sign ++ ds, r)
        | _ => ([], s)
        end
      else ([], s)
  | [] => ([], s)
  end.

(** [_match_number]: an optional minus sign; [0], or a digit from 1 to 9
    followed by digits; an optional fraction; an optional exponent.  The
    value is an [int] when there is neither fraction nor exponent. *)
Definition match_number (s : str) : option (json * str) :=
  let '(sign, s0) :=
    match s with
    | c :: s' => if eqc "-" c then ([c], s') else ([], s)
    | [] => ([], s)
    end in
  match s0 with
  | c :: s1 =>
      if is_digit c then
        let '(ds, s2) := if eqc "0" c then ([], s1) else span_digits s1 in
        let '(frac, s3) := match_frac s2 in
        let '(exp, s4) := match_exp s3 in
        match frac, exp with
        | [], [] =>
            let n := decimal 0 (c :: ds) in
            Some (JInt (match sign with [] => n | _ => - n end)%Z, s4)
        | _, _ => Some (JFloat (sign ++ c :: ds ++ frac ++ exp), s4)
        end
      else None
  | [] => None
  end.

(** [s] with the prefix [p] removed, when it starts with it. *)
Fixpoint strip_prefix (p s : str) : option str :=
  match p, s with
  | [], _ => Some s
  | a :: p', b :: s' => if a =? b then strip_prefix p' s' else None
  | _ :: _, [] => None
  end.

Definition keyword (w : string) (v : json) (s : str) : option (json * str) :=
  r ← strip_prefix (lit w) s; Some (v, r).

(** The values [scan_once] reads without recursion: strings, the literals
    and numbers. *)
Definition scan_atom (s : str) : option (json * str) :=
  match s with
  | [] => None
  | c :: s' =>
      if c =? DQUOTE then '(v, r) ← scanstring s'; Some (JStr v, r)
      else if eqc "n" c then keyword "null" JNull s
      else if eqc "t" c then keyword "true" (JBool true) s
      else if eqc "f" c then keyword "false" (JBool false) s
      else if eqc "N" c then keyword "NaN" (JFloat (lit "NaN")) s
      else if eqc "I" c then keyword "Infinity" (JFloat (lit "Infinity")) s
      else if eqc "-" c then
        match keyword "-Infinity" (JFloat (lit "-Infinity")) s with
        | Some r => Some r
        | None => match_number s
        end
      else match_number s
  end.

Definition decode_error {A} : res A := Raise JSONDecodeError.

(** [scan_once], with [JSONArray] and [JSONObject] as its two loops.
    [JSONArray fuel acc s] has read the items [acc] (last first) and [s]
    starts the next item; [JSONObject fuel acc s] has read the pairs [acc]
    and [s] starts at the next key. *)
Fixpoint scan_once (fuel : nat) (s : str) {struct fuel} : res (json * str) :=
  match fuel with
  | O => Diverged
  | S fuel' =>
      match s with
      | [] => decode_error
      | c :: s1 =>
          if eqc "{" c then
            match skip_ws s1 with
            | [] => decode_error
            | c1 :: s2 =>
                if eqc "}" c1 then Ok (JDict [], s2)
                else JSONObject fuel' [] (c1 :: s2)
            end
          else if eqc "[" c then
            match skip_ws s1 with
            | [] => decode_error
            | c1 :: s2 =>
                if eqc "]" c1 then Ok (JList [], s2)
                else JSONArray fuel' [] (c1 :: s2)
            end
          else
            match scan_atom s with
            | Some r => Ok r
            | None => decode_error
            end
      end
  end
with JSONArray (fuel : nat) (acc : list json) (s : str) {struct fuel}
  : res (json * str) :=
  match fuel with
  | O => Diverged
  | S fuel' =>
      '(v, s1) ← scan_once fuel' s;
      match skip_ws s1 with
      | [] => decode_error
      | c :: s2 =>
          if eqc "]" c then Ok (JList (rev (v :: acc)), s2)
          else if eqc "," c then JSONArray fuel' (v :: acc) (skip_ws s2)
          else decode_error
      end
  end
with JSONObject (fuel : nat) (acc : list (str * json)) (s : str) {struct fuel}
  : res (json * str) :=
  match fuel with
  | O => Diverged
  | S fuel' =>
      match s with
      | [] => decode_error
      | q :: s1 =>
          if q =? DQUOTE then
            match scanstring s1 with
            | None => decode_error
            | Some (key, s2) =>
                match skip_ws s2 with
                | [] => decode_error
                | colon :: s3 =>
                    if eqc ":" colon then
                      '(v, s4) ← scan_once fuel' (skip_ws s3);
                      match skip_ws s4 with
                      | [] => decode_error
                      | c :: s5 =>
                          if eqc "}" c
                          then Ok (JDict (dict_of_pairs (rev ((key, v) :: acc))), s5)
                          else if eqc "," c
                          then JSONObject fuel' ((key, v) :: acc) (skip_ws s5)
                          else decode_error
                      end
                    else decode_error
                end
            end
          else decode_error
      end
  end.

(** Fuel that [scan_once] cannot exhaust on [s]. *)
Definition enough_fuel (s : str) : nat := 2 * length s + 1.

(** [json.loads(s)] *)
Definition json_loads (s : str) : res json :=
  if startswith [65279] s then decode_error
  else
    '(obj, rest) ← scan_once (enough_fuel (skip_ws s)) (skip_ws s);
    match skip_ws rest with
    | [] => Ok obj
    | _ :: _ => decode_error
    end.

(** A successful scan leaves less input than it was given. *)
Definition consumes (m : res (json * str)) (s : str) : Prop :=
  forall v r, m = Ok (v, r) -> (length r < length s)%nat.

End Json.

(** ** Chunk-response repair ([ocr.py], lines 209-257) *)

Module Repair.
Import Json.

(** [re.search(r"\[.*\]", text, re.DOTALL)]: the longest prefix of [s] that
    ends with [c] is what a greedy [.*] followed by [c] matches. *)
Fixpoint upto_last (c : char) (s : str) : option str :=
  match s with
  | [] => None
  | d :: s' =>
      match upto_last c s' with
      | Some p => Some (d :: p)
      | None => if N.eqb d c then Some [d] else None
      end
  end.

(** The match object's [group()], at the leftmost position that matches. *)
Fixpoint search_brackets (s : str) : option str :=
  match s with
  | [] => None
  | c :: s' =>
      if eqc "[" c then
        match upto_last (chr "]") s' with
        | Some p => Some (c :: p)
        | None => search_brackets s'
        end
      else search_brackets s'
  end.

(** Lines 211-219: the text handed to [json.loads]. *)
Definition strip_fences (raw : str) : str :=
  let text := strip raw in
  if startswith (lit "```") text then
    let lines := split LF text in
    let lines := tail lines in
    let lines :=
      match last lines with
      | Some l => if decide (strip l = lit "```") then removelast lines else lines
      | None => lines
      end in
    join [LF] lines
  else text.

(** The chunk of last resort. *)
Definition fallback (raw : str) : json :=
  JDict [(lit "text", JStr raw); (lit "bbox", JNull); (lit "parse_error", JBool true)].

(** [json.loads(inner)] under [try ... except json.JSONDecodeError: pass],
    keeping the result only when it is a list: [Some] stands for [return]. *)
Definition reparse (inner : json) : res (option json) :=
  match inner with
  | JStr inner =>
      try_except
        (parsed ← json_loads inner;
         match parsed with
         | JList _ => Ok (Some parsed)
         | _ => Ok None
         end)
        JSONDecodeError (Ok None)
  | _ => Ok None
  end.

(** Lines 221-247, the body of the outer [try]. *)
Definition parse_body (text : str) : res json :=
  data ← json_loads text;
  match data with
  | JList l =>
      returned ←
        match l with
        | [JDict d0] =>
            if dict_in (lit "text") d0 && negb (dict_in (lit "bbox") d0) then
              inner ← dict_getitem d0 (lit "text");
              reparse inner
            else Ok None
        | _ => Ok None
        end;
      match returned with
      | Some parsed => Ok parsed
      | None => Ok data
      end
  | JDict d =>
      returned ←
        (if dict_in (lit "text") d then
           inner ← dict_getitem d (lit "text");
           match inner with
           | JList _ => Ok (Some inner)
           | _ => reparse inner
           end
         else Ok None);
      match returned with
      | Some parsed => Ok parsed
      | None => Ok (JList [data])
      end
  | _ => Ok (JList [data])
  end.

(** Lines 248-257, the handler of [except json.JSONDecodeError]. *)
Definition last_resort (raw text : str) : res json :=
  returned ←
    match search_brackets text with
    | Some m =>
        try_except (Some <$> json_loads m) JSONDecodeError (Ok None)
    | None => Ok None
    end;
  match returned with
  | Some parsed => Ok parsed
  | None => Ok (JList [fallback raw])
  end.

Definition parse_bbox_response (raw : str) : res json :=
  let text := strip_fences raw in
  try_except (parse_body text) JSONDecodeError (last_resort raw text).

(** *** The Chunk of the data model *)




Definition is_object (j : json) : bool :=
  match j with JDict _ => true | _ => false end.


(** *** The repair chain as the specification words it (section 4.5) *)


(** Step 3: the bracket search. *)
Definition spec_step3 (text : str) : option json :=
  match search_brackets text with
  | Some m => match json_loads m with Ok (JList p) => Some (JList p) | _ => None end
  | None => None
  end.


End Repair.

(** ** The json branch of [main] ([ocr.py], lines 330-363) *)

Module Main.
Import Json Fill Repair.

(** Lines 345-347, for one [r] of [regions]. *)
Definition normalize_region (r : json) : res json :=
  match r with
  | JDict d =>
      match dict_get (lit "text") d with
      | Some (JStr t) => Ok (JDict (dict_set (lit "text") (JStr (normalize_fill_zones t)) d))
      | _ => Ok r
      end
  | _ => Raise AttributeError
  end.

(** [for r in regions]: a list is visited item by item; the other values
    that can be iterated yield things without a [get]. *)
Definition normalize_regions (regions : json) : res json :=
  match regions with
  | JList l => JList <$> mapM normalize_region l
  | JStr [] | JDict [] => Ok regions
  | JStr (_ :: _) | JDict (_ :: _) => Raise AttributeError
  | _ => Raise TypeError
  end.

(** [{"source": label, "regions": regions}] *)
Definition page_entry (label : str) (regions : json) : json :=
  JDict [(lit "source", JStr label); (lit "regions", regions)].

(** Lines 343-348: one page, given what [ocr_image_base64] returned. *)
Definition process_page (all_json_results : list json) (label raw : str)
  : res (list json) :=
  regions ← parse_bbox_response raw;
  regions ← normalize_regions regions;
  Ok (all_json_results ++ [page_entry label regions]).

Fixpoint process_pages (all_json_results : list json) (pages : list (str * str))
  : res (list json) :=
  match pages with
  | [] => Ok all_json_results
  | (label, raw) :: pages' =>
      results ← process_page all_json_results label raw;
      process_pages results pages'
  end.

(** The chunk sequence of one page: repaired, then normalised. *)
Definition page_regions (raw : str) : res json :=
  regions ← parse_bbox_response raw;
  normalize_regions regions.

(** The entry that a page leaves in [all_json_results]. *)
Definition entry_of (page : str * str) (entry : json) : Prop :=
  exists chunks,
    page_regions (snd page) = Ok (JList chunks)
    /\ entry = page_entry (fst page) (JList chunks).

Section Output.

(** [json.dumps(_, indent=2, ensure_ascii=False)] *)
Variable json_dumps : json -> str.

(** Lines 358-363. *)
Definition format_json (all_json_results : list json) : res str :=
  match all_json_results with
  | [JDict entry] =>
      regions ← dict_getitem entry (lit "regions");
      Ok (json_dumps regions)
  | [_] => Raise TypeError
  | _ => Ok (json_dumps (JList all_json_results))
  end.

(** The json run over the pages, each with its label and model output. *)
Definition main_json (pages : list (str * str)) : res str :=
  results ← process_pages [] pages;
  format_json results.

End Output.

End Main.

(** ** The text and html branches of [main] ([ocr.py], lines 349-355) *)

Module Clean.
Import Fill.

(** [pattern.sub(repl, s)] for a pattern that matches no empty string:
    [matcher] gives the length of the match anchored at the head of its
    argument.  The scan goes from the left; at a match it emits [repl] and
    resumes after the match, otherwise it copies one character.  [skip]
    counts the characters of the current match still to be consumed. *)
Fixpoint re_sub (matcher : str -> option nat) (repl : str) (skip : nat) (s : str) : str :=
  match s with
  | [] => []
  | c :: s' =>
      match skip with
      | S k => re_sub matcher repl k s'
      | O =>
          match matcher s with
          | Some (S k) => repl ++ re_sub matcher repl k s'
          | _ => c :: re_sub matcher repl 0 s'
          end
      end
  end.

(** The number of characters up to the first [>], that one included. *)
Fixpoint upto_gt (s : str) : option nat :=
  match s with
  | [] => None
  | c :: s' => if eqc ">" c then Some 1 else (S <$> upto_gt s')
  end.

(** [<[^>]+>] anchored at the head of [s]: a [<], one character or more that
    are not [>], and a [>]. *)
Definition tag_match (s : str) : option nat :=
  match s with
  | c :: s' =>
      if eqc "<" c then
        match upto_gt s' with
        | Some (S (S k)) => Some (S (S (S k)))
        | _ => None
        end
      else None
  | [] => None
  end.

(** [ {2,}] anchored at the head of [s]: two spaces or more. *)
Definition spaces_match (s : str) : option nat :=
  let n := run_length (chr " ") s in
  if 2 <=? n then Some n else None.

(** [re.sub(r"<[^>]+>", " ", raw)] *)
Definition strip_tags (raw : str) : str := re_sub tag_match (lit " ") 0 raw.

(** [re.sub(r" {2,}", " ", cleaned)] *)
Definition collapse_spaces (cleaned : str) : str := re_sub spaces_match (lit " ") 0 cleaned.

(** Lines 351-353: what the text format keeps of one page. *)
Definition clean_text (raw : str) : str :=
  normalize_fill_zones (strip (collapse_spaces (strip_tags raw))).

(** Line 355: what the html format keeps of one page. *)
Definition clean_html (raw : str) : str := normalize_fill_zones raw.

(** *** What the properties speak of *)

(** [s] holds a tag: a [<], some characters other than [>], a [>]. *)
Definition has_tag (s : str) : Prop :=
  exists pre body post,
    body <> [] /\ (chr ">" ∉ body) /\ s = pre ++ chr "<" :: body ++ chr ">" :: post.

(** [s] holds two consecutive spaces. *)
Definition double_space (s : str) : Prop :=
  exists pre post, s = pre ++ chr " " :: chr " " :: post.

(** Decidable readings, position by position. *)
Fixpoint tagged (s : str) : bool :=
  match s with
  | [] => false
  | _ :: s' => match tag_match s with Some _ => true | None => tagged s' end
  end.

Definition hd_space (s : str) : bool :=
  match s with
  | c :: _ => eqc " " c
  | [] => false
  end.

Fixpoint spaced (s : str) : bool :=
  match s with
  | [] => false
  | c :: s' => (eqc " " c && hd_space s') || spaced s'
  end.

End Clean.

(** ** Questions about an image ([ask.py]) *)

Module Ask.
Import Stream Json Repair.

(** [str(i)] for an integer: its decimal digits, a minus sign before them
    when it is negative. *)
Definition str_int (i : Z) : str := lit (pretty i).

(** Lines 51-55. *)
Definition image_content_block (img_b64 mime : str) : json :=
  JDict [(lit "type", JStr (lit "image_url"));
         (lit "image_url",
          JDict [(lit "url", JStr (lit "data:" ++ mime ++ lit ";base64," ++ img_b64))])].

(** Lines 60-64, the system prompt; its dash is the character 8212. *)
Definition BATCH_SYSTEM : str :=
  lit "You are a precise document analysis assistant. "
  ++ lit "Answer each question using only information visible in the provided image. "
  ++ lit "Be concise and exact " ++ [8212%N]
  ++ lit " return only the extracted value, no explanation.".

(** The five lines that open the batch prompt (lines 67-74); the ellipsis of
    the second is the character 8230. *)
Definition prompt_header : list str :=
  [lit "Answer the following questions about the image.";
   jtext "Return a JSON object with question numbers as keys ('1', '2', "
     ++ [8230%N] ++ lit ") and the extracted answers as string values.";
   lit "If the answer is not visible, use null.";
   lit "Return ONLY the JSON object, no markdown fences.";
   []].

(** [enumerate(questions, start)] *)
Fixpoint enumerate {A} (l : list A) (start : Z) : list (Z * A) :=
  match l with
  | [] => []
  | x :: l' => (start, x) :: enumerate l' (start + 1)
  end.

(** Lines 66-77. *)
Definition build_batch_prompt (questions : list str) : str :=
  let lines :=
    prompt_header
    ++ map (fun iq => str_int (fst iq) ++ lit ". " ++ snd iq) (enumerate questions 1) in
  join [LF] lines.

(** The loop that gathers a streamed reply in [ask_batch] (lines 100-103)
    and in [run_interactive] (lines 160-163). *)
Definition gather (stream : list ChatCompletionChunk) : list str :=
  fold_left
    (fun parts chunk =>
       match choices chunk with
       | choice :: _ =>
           match truthy (content (delta choice)) with
           | Some d => parts ++ [d]
           | None => parts
           end
       | [] => parts
       end)
    stream [].

(** Lines 104-114 of [ask_batch], from the streamed reply on. *)
Definition ask_batch (stream : list ChatCompletionChunk) : res json :=
  let raw := strip_fences (concat (gather stream)) in
  try_except (json_loads raw) JSONDecodeError
             (Ok (JDict [(lit "error", JStr raw)])).

(** [results.get(key)]; only a dict has a [get]. *)
Definition results_get (results : json) (key : str) : res json :=
  match results with
  | JDict d => Ok (default JNull (dict_get key d))
  | _ => Raise AttributeError
  end.

(** Lines 247-250 of [main]: the dict comprehension, entry after entry. *)
Fixpoint output_entries (results : json) (numbered : list (Z * str))
    (output_data : list (str * json)) : res (list (str * json)) :=
  match numbered with
  | [] => Ok output_data
  | (i, q) :: numbered' =>
      answer ← results_get results (str_int i);
      output_entries results numbered'
        (dict_set (str_int i)
           (JDict [(lit "question", JStr q); (lit "answer", answer)]) output_data)
  end.

Definition output_data (results : json) (questions : list str) : res json :=
  JDict <$> output_entries results (enumerate questions 1) [].

(** *** The interactive mode (lines 119-166) *)

(** [s.lower()], as far as the comparison with [quit], [exit] and [q] can
    tell: no character outside ASCII lowers to a letter of these words. *)
Definition lower (s : str) : str :=
  map (fun c => if (65 <=? c)%N && (c <=? 90)%N then (c + 32)%N else c) s.

(** [not question or question.lower() in ("quit", "exit", "q")] *)
Definition leaves (question : str) : bool :=
  match question with
  | [] => true
  | _ => bool_decide (lower question ∈ [lit "quit"; lit "exit"; lit "q"])
  end.

Definition message (role : string) (content : json) : json :=
  JDict [(lit "role", JStr (lit role)); (lit "content", content)].

(** Lines 140-148: the content of a user turn. *)
Definition user_content (first_turn : bool) (img_b64 mime question : str) : json :=
  if first_turn then
    JList [JDict [(lit "type", JStr (lit "text")); (lit "text", JStr question)];
           image_content_block img_b64 mime]
  else JStr question.

Section Interactive.

(** The endpoint: the stream it sends back for a list of messages. *)
Variable create : list json -> list ChatCompletionChunk.
Variables img_b64 mime : str.

(** The [while True] loop.  [inputs] is what [input] returns, line after
    line, before it raises [EOFError].  The result is the final [messages]
    and, oldest first, the [messages] of every request sent. *)
Fixpoint turns (messages : list json) (first_turn : bool) (inputs : list str)
    (requests : list (list json)) : list json * list (list json) :=
  match inputs with
  | [] => (messages, requests)
  | line :: inputs' =>
      let question := strip line in
      if leaves question then (messages, requests)
      else
        let content := user_content first_turn img_b64 mime question in
        let messages := messages ++ [message "user" content] in
        let answer := concat (gather (create messages)) in
        turns (messages ++ [message "assistant" (JStr answer)]) false inputs'
              (requests ++ [messages])
  end.

Definition run_interactive (inputs : list str) : list json * list (list json) :=
  turns [message "system" (JStr BATCH_SYSTEM)] true inputs [].

End Interactive.

(** *** What the properties speak of *)

(** The message carries an image block. *)
Definition has_image (msg : json) : bool :=
  match msg with
  | JDict d =>
      match dict_get (lit "content") d with
      | Some (JList blocks) =>
          existsb (fun b => match b with
                            | JDict bd =>
                                match dict_get (lit "type") bd with
                                | Some (JStr t) => bool_decide (t = lit "image_url")
                                | _ => false
                                end
                            | _ => false
                            end) blocks
      | _ => false
      end
  | _ => false
  end.

Definition role_of (msg : json) : option json :=
  match msg with
  | JDict d => dict_get (lit "role") d
  | _ => None
  end.

(** The questions that the loop asks: the stripped lines, up to the first
    that leaves. *)
Fixpoint asked (inputs : list str) : list str :=
  match inputs with
  | [] => []
  | line :: inputs' =>
      if leaves (strip line) then [] else strip line :: asked inputs'
  end.

(** The assistant message that answers the request [r]. *)
Definition answer_to (create : list json -> list ChatCompletionChunk) (r : list json)
  : json :=
  message "assistant" (JStr (concat (gather (create r)))).

(** What [messages] holds when the [i]-th question is read: the system
    prompt, or the request before and its answer. *)
Definition history_before (create : list json -> list ChatCompletionChunk)
    (requests : list (list json)) (i : nat) : list json :=
  match i with
  | O => [message "system" (JStr BATCH_SYSTEM)]
  | S j =>
      match requests !! j with
      | Some r => r ++ [answer_to create r]
      | None => []
      end
  end.

(** The loop invariant: after the questions [qs], [messages], [first_turn]
    and the requests sent. *)
Definition turns_inv (create : list json -> list ChatCompletionChunk)
    (img_b64 mime : str) (qs : list str) (messages : list json)
    (first_turn : bool) (requests : list (list json)) : Prop :=
  length requests = length qs
  /\ first_turn = Nat.eqb (length requests) 0
  /\ messages = history_before create requests (length requests)
  /\ forall i r,
       requests !! i = Some r ->
       exists q,
         qs !! i = Some q
         /\ r = history_before create requests i
                ++ [message "user" (user_content (Nat.eqb i 0) img_b64 mime q)].

(** The characters of a number: digits and the minus sign. *)
Definition numeric (a : ascii) : Prop :=
  (48 <= N_of_ascii a <= 57)%N \/ a = "-"%char.

(** One entry of [output_data]. *)
Definition output_entry (answer : str -> json) (iq : Z * str) : str * json :=
  (str_int (fst iq),
   JDict [(lit "question", JStr (snd iq)); (lit "answer", answer (str_int (fst iq)))]).

End Ask.

(** * Chunks through the json branch *)

Module Regions.
Import Json Fill.

(** What the loop of lines 345-347 does to one chunk: the keys stay, in
    their order; a [text] that is a string is normalised; every other entry
    is as it was. *)
Definition region_kept (r r' : json) : Prop :=
  exists d d',
    r = JDict d /\ r' = JDict d'
    /\ map fst d' = map fst d
    /\ dict_get (lit "text") d' =
       match dict_get (lit "text") d with
       | Some (JStr t) => Some (JStr (normalize_fill_zones t))
       | other => other
       end
    /\ forall k, k <> lit "text" -> dict_get k d' = dict_get k d.

End Regions.

(** * Properties *)

(** ** Fill-zone normaliser *)

Module FillFacts.
Import Fill.
#[local] Arguments Nat.leb : simpl never.

Lemma eqc_true a c : eqc a c = true <-> c = chr a.
Proof. unfold eqc. apply N.eqb_eq. Qed.

Lemma fill_sub_skip repl k s :
  fill_sub repl k s = fill_sub repl 0 (skipn k s).
Proof.
  revert k. induction s as [|c s IH]; intros [|k]; try reflexivity.
  simpl fill_sub at 1. now rewrite IH.
Qed.

(** The scanner, one step at a time. *)
Lemma normalize_nil : normalize_fill_zones [] = [].
Proof. reflexivity. Qed.

Lemma normalize_cons c s :
  normalize_fill_zones (c :: s) =
  if is_fill c && (3 <=? run_length c s)
  then lit "___" ++ normalize_fill_zones (skipn (run_length c s) s)
  else c :: normalize_fill_zones s.
Proof.
  unfold normalize_fill_zones. cbn [fill_sub fill_match].
  destruct (is_fill c && (3 <=? run_length c s)); [|reflexivity].
  now rewrite fill_sub_skip.
Qed.

Lemma run_length_repeat c n t :
  run_length c t = 0 -> run_length c (repeat c n ++ t) = n.
Proof.
  intros Ht. induction n as [|n IH]; simpl; [exact Ht|].
  rewrite N.eqb_refl. now rewrite IH.
Qed.

Lemma skipn_repeat_app (c : char) n t : skipn n (repeat c n ++ t) = t.
Proof. induction n; simpl; auto. Qed.

(** A run that is not a fill zone is copied. *)
Lemma normalize_keep c n t :
  fill_zone (c, n) = false -> run_length c t = 0 ->
  normalize_fill_zones (repeat c n ++ t) = repeat c n ++ normalize_fill_zones t.
Proof.
  unfold fill_zone. simpl. intros Hz Ht.
  induction n as [|n IH]; [reflexivity|].
  simpl. rewrite normalize_cons, (run_length_repeat _ _ _ Ht).
  assert (Hn : is_fill c && (3 <=? n) = false).
  { destruct (is_fill c); [|reflexivity]. simpl in *.
    apply Nat.leb_gt. apply Nat.leb_gt in Hz. lia. }
  rewrite Hn. f_equal. apply IH.
  destruct (is_fill c); [|reflexivity]. simpl in *.
  apply Nat.leb_gt. apply Nat.leb_gt in Hz. lia.
Qed.

(** A fill zone is replaced, whole, by the placeholder. *)
Lemma normalize_zone c n t :
  fill_zone (c, n) = true -> run_length c t = 0 ->
  normalize_fill_zones (repeat c n ++ t) = lit "___" ++ normalize_fill_zones t.
Proof.
  unfold fill_zone. simpl. intros Hz Ht.
  apply andb_true_iff in Hz as [Hc Hn]. apply Nat.leb_le in Hn.
  destruct n as [|n]; [lia|].
  simpl repeat. rewrite <- app_comm_cons, normalize_cons.
  rewrite (run_length_repeat _ _ _ Ht), Hc.
  assert (H3 : (3 <=? n) = true) by (apply Nat.leb_le; lia).
  rewrite H3. simpl andb. cbv iota. now rewrite skipn_repeat_app.
Qed.

(** *** Run-length decomposition *)

Lemma expand_runs s : expand (runs s) = s.
Proof.
  induction s as [|c s IH]; [reflexivity|].
  simpl. destruct (runs s) as [|[d n] rs].
  - simpl in *. now rewrite <- IH.
  - destruct (N.eqb_spec c d) as [->|Hne]; simpl in *; now rewrite <- IH.
Qed.

Lemma maximal_runs s : maximal (runs s).
Proof.
  induction s as [|c s IH]; [exact I|].
  simpl. destruct (runs s) as [|[d n] rs].
  - simpl. auto with lia.
  - destruct (N.eqb_spec c d) as [->|Hne].
    + simpl in *. intuition lia.
    + simpl in *. intuition lia.
Qed.

Lemma run_length_expand c rs :
  maximal rs ->
  match rs with [] => True | r' :: _ => c <> fst r' end ->
  run_length c (expand rs) = 0.
Proof.
  destruct rs as [|[d n] rs]; [reflexivity|].
  simpl. intros (Hn & _ & _) Hne.
  destruct n as [|n]; [lia|]. simpl.
  destruct (N.eqb_spec d c); congruence.
Qed.

Lemma normalize_expand rs :
  maximal rs -> normalize_fill_zones (expand rs) = flat_map collapse rs.
Proof.
  induction rs as [|[c n] rs IH]; [reflexivity|].
  intros Hm. pose proof Hm as (Hn & Hne & Hm').
  assert (Hrl : run_length c (expand rs) = 0)
    by (apply run_length_expand; assumption).
  change (expand ((c, n) :: rs)) with (repeat c n ++ expand rs).
  change (flat_map collapse ((c, n) :: rs))
    with (collapse (c, n) ++ flat_map collapse rs).
  unfold collapse. destruct (fill_zone (c, n)) eqn:Hz.
  - rewrite (normalize_zone _ _ _ Hz Hrl). now rewrite IH.
  - rewrite (normalize_keep _ _ _ Hz Hrl). now rewrite IH.
Qed.

Lemma normalize_is_spec s : normalize_fill_zones s = normalize_spec s.
Proof.
  unfold normalize_spec.
  rewrite <- (expand_runs s) at 1. apply normalize_expand, maximal_runs.
Qed.

Lemma length_collapse r : length (collapse r) <= snd r.
Proof.
  unfold collapse, fill_zone. destruct r as [c n]. simpl.
  destruct (is_fill c); simpl.
  - destruct (Nat.leb_spec 4 n); simpl; [lia|]. now rewrite repeat_length.
  - now rewrite repeat_length.
Qed.

Lemma length_flat_collapse rs :
  length (flat_map collapse rs) <= length (expand rs).
Proof.
  induction rs as [|r rs IH]; [reflexivity|].
  unfold expand in *. simpl. rewrite !length_app, repeat_length.
  pose proof (length_collapse r). lia.
Qed.

(** A fill zone among the runs shows up as four equal fill characters. *)
Lemma zone_has_fill_run rs :
  Exists (fun r => fill_zone r = true) rs -> has_fill_run (expand rs).
Proof.
  induction 1 as [[c n] rs Hz | r rs _ IH].
  - unfold fill_zone in Hz. simpl in Hz.
    apply andb_true_iff in Hz as [Hc Hn]. apply Nat.leb_le in Hn.
    exists [], c, (repeat c (n - 4) ++ expand rs). split; [exact Hc|].
    change (expand ((c, n) :: rs)) with (repeat c n ++ expand rs).
    replace n with (4 + (n - 4)) at 1 by lia.
    rewrite repeat_app. now rewrite <- app_assoc.
  - destruct IH as (pre & c & post & Hc & E).
    exists (repeat (fst r) (snd r) ++ pre), c, post. split; [exact Hc|].
    change (expand (r :: rs)) with (repeat (fst r) (snd r) ++ expand rs).
    rewrite E. now rewrite <- app_assoc.
Qed.

Lemma no_zone_collapse rs :
  Forall (fun r => fill_zone r = false) rs -> flat_map collapse rs = expand rs.
Proof.
  induction 1 as [|r rs Hr _ IH]; [reflexivity|].
  unfold expand in *. simpl. unfold collapse at 1. now rewrite Hr, IH.
Qed.

Lemma no_fill_run_fixed s : ~ has_fill_run s -> normalize_fill_zones s = s.
Proof.
  intros Hno. rewrite normalize_is_spec. unfold normalize_spec.
  rewrite no_zone_collapse; [apply expand_runs|].
  apply List.Forall_forall. intros r Hr.
  destruct (fill_zone r) eqn:Hz; [|reflexivity].
  exfalso. apply Hno. rewrite <- (expand_runs s).
  apply zone_has_fill_run, List.Exists_exists. eauto.
Qed.

(** The normaliser never lengthens. *)
Lemma length_normalize s : length (normalize_fill_zones s) <= length s.
Proof.
  rewrite normalize_is_spec. unfold normalize_spec.
  rewrite <- (expand_runs s) at 2. apply length_flat_collapse.
Qed.

Lemma run_length_le c s : run_length c s <= length s.
Proof.
  induction s as [|d s IH]; simpl; [lia|].
  destruct (N.eqb d c); lia.
Qed.

(** Four equal fill characters make it strictly shorten. *)
Lemma fill_run_shrinks s :
  has_fill_run s -> length (normalize_fill_zones s) < length s.
Proof.
  intros (pre & c & post & Hc & ->).
  induction pre as [|a pre IH].
  - change ([] ++ repeat c 4 ++ post) with (c :: repeat c 3 ++ post).
    rewrite normalize_cons, Hc.
    assert (H3 : 3 <= run_length c (repeat c 3 ++ post)).
    { simpl. rewrite !N.eqb_refl. lia. }
    apply Nat.leb_le in H3 as H3'. rewrite H3'. simpl andb. cbv iota.
    pose proof (length_normalize (skipn (run_length c (repeat c 3 ++ post)) (repeat c 3 ++ post))) as Hl.
    pose proof (run_length_le c (repeat c 3 ++ post)) as Hr.
    rewrite length_skipn in Hl.
    rewrite length_app. change (length (lit "___")) with 3.
    change (length (c :: repeat c 3 ++ post)) with (S (length (repeat c 3 ++ post))).
    lia.
  - rewrite <- app_comm_cons, normalize_cons.
    destruct (is_fill a && (3 <=? run_length a (pre ++ repeat c 4 ++ post))) eqn:Hm.
    + apply andb_true_iff in Hm as [_ Hm]. apply Nat.leb_le in Hm.
      pose proof (length_normalize (skipn (run_length a (pre ++ repeat c 4 ++ post)) (pre ++ repeat c 4 ++ post))) as Hl.
      pose proof (run_length_le a (pre ++ repeat c 4 ++ post)) as Hr.
      rewrite length_skipn in Hl.
      rewrite length_app. change (length (lit "___")) with 3.
      change (length (a :: pre ++ repeat c 4 ++ post))
        with (S (length (pre ++ repeat c 4 ++ post))). lia.
    + cbn [length]. apply (proj1 (Nat.succ_lt_mono _ _)). exact IH.
Qed.

(** *** When a second pass changes nothing *)


Lemma expand_collapse_run rs :
  expand (map collapse_run rs) = flat_map collapse rs.
Proof.
  induction rs as [|r rs IH]; [reflexivity|].
  unfold expand in *. simpl. rewrite IH. f_equal.
  unfold collapse_run, collapse. now destruct (fill_zone r).
Qed.

Lemma fill_zone_collapse_run r : fill_zone (collapse_run r) = false.
Proof.
  unfold collapse_run. destruct (fill_zone r) eqn:Hz; [reflexivity|exact Hz].
Qed.

Lemma fst_collapse_run r :
  fst (collapse_run r) = if fill_zone r then chr "_" else fst r.
Proof. unfold collapse_run. now destruct (fill_zone r). Qed.

Lemma isolated_cons2 r1 r2 rs :
  isolated (r1 :: r2 :: rs) =
  negb (fill_zone r1 && underscored r2) && negb (underscored r1 && fill_zone r2)
  && isolated (r2 :: rs).
Proof. reflexivity. Qed.

Lemma maximal_collapse_run rs :
  maximal rs -> isolated rs = true -> maximal (map collapse_run rs).
Proof.
  induction rs as [|r1 rs IH]; [auto|].
  intros (Hn & Hne & Hm) Hiso. simpl. split; [|split].
  - unfold collapse_run. destruct (fill_zone r1); simpl; lia.
  - destruct rs as [|r2 rs]; [exact I|]. simpl.
    simpl in Hiso. apply andb_true_iff in Hiso as [Hiso _].
    apply andb_true_iff in Hiso as [H12 H21].
    apply negb_true_iff in H12, H21. unfold underscored in *.
    rewrite !fst_collapse_run.
    destruct (fill_zone r1) eqn:Z1, (fill_zone r2) eqn:Z2;
      cbn [andb orb] in H12, H21; try discriminate; try assumption.
    + intros E. symmetry in E. apply eqc_true in E. congruence.
    + rewrite andb_true_r in H21.
      intros E. apply eqc_true in E. congruence.
  - apply IH; [exact Hm|].
    destruct rs as [|r2 rs]; [reflexivity|].
    simpl in Hiso. now apply andb_true_iff in Hiso as [_ Hiso].
Qed.

Lemma isolated_fixed s :
  isolated (runs s) = true ->
  normalize_fill_zones (normalize_fill_zones s) = normalize_fill_zones s.
Proof.
  intros Hiso. rewrite (normalize_is_spec s). unfold normalize_spec.
  rewrite <- expand_collapse_run.
  rewrite normalize_expand by (apply maximal_collapse_run; [apply maximal_runs|exact Hiso]).
  rewrite no_zone_collapse; [reflexivity|].
  apply List.Forall_forall. intros r Hr. apply in_map_iff in Hr as (r0 & <- & _).
  apply fill_zone_collapse_run.
Qed.

Lemma underscored_collapse r :
  0 < snd r -> underscored r = true ->
  exists t, collapse r = t ++ [chr "_"] /\ exists t', collapse r = chr "_" :: t'.
Proof.
  unfold underscored, collapse. destruct r as [c n]. simpl. intros Hn Hu.
  destruct (fill_zone (c, n)).
  - exists (lit "__"). split; [reflexivity|]. now exists (lit "__").
  - simpl in Hu. apply eqc_true in Hu. subst c.
    destruct n as [|n]; [lia|].
    exists (repeat (chr "_") n). split.
    + now rewrite <- repeat_cons.
    + now exists (repeat (chr "_") n).
Qed.

Lemma not_isolated_has_fill_run rs :
  maximal rs -> isolated rs = false -> has_fill_run (flat_map collapse rs).
Proof.
  induction rs as [|r1 rs IH]; [discriminate|].
  intros (Hn & _ & Hm) Hiso.
  destruct rs as [|r2 rs]; [discriminate|].
  pose proof Hm as (Hn2 & _ & _).
  rewrite isolated_cons2 in Hiso.
  destruct (isolated (r2 :: rs)) eqn:Hrest.
  - rewrite andb_true_r in Hiso. apply andb_false_iff in Hiso.
    change (flat_map collapse (r1 :: r2 :: rs))
      with (collapse r1 ++ collapse r2 ++ flat_map collapse rs).
    destruct Hiso as [H|H]; apply negb_false_iff, andb_true_iff in H as [H1 H2].
    + assert (U1 : underscored r2 = true) by exact H2.
      destruct (underscored_collapse r2 Hn2 U1) as (t0 & _ & t' & E2).
      unfold collapse at 1. rewrite H1, E2.
      exists [], (chr "_"), (t' ++ flat_map collapse rs).
      split; reflexivity.
    + destruct (underscored_collapse r1 Hn H1) as (t & E1 & _ & _).
      unfold collapse at 2. rewrite H2, E1.
      exists t, (chr "_"), (flat_map collapse rs).
      split; [reflexivity|]. now rewrite <- app_assoc.
  - destruct (IH Hm eq_refl) as (pre & c & post & Hc & E).
    exists (collapse r1 ++ pre), c, post. split; [exact Hc|].
    change (flat_map collapse (r1 :: r2 :: rs))
      with (collapse r1 ++ flat_map collapse (r2 :: rs)).
    rewrite E. now rewrite <- app_assoc.
Qed.

Lemma idempotent_iff_isolated s :
  normalize_fill_zones (normalize_fill_zones s) = normalize_fill_zones s
  <-> isolated (runs s) = true.
Proof.
  split; [|apply isolated_fixed].
  intros Hfix. destruct (isolated (runs s)) eqn:Hiso; [reflexivity|].
  exfalso.
  pose proof (not_isolated_has_fill_run _ (maximal_runs s) Hiso) as Hrun.
  fold (normalize_spec s) in Hrun. rewrite <- normalize_is_spec in Hrun.
  apply fill_run_shrinks in Hrun. rewrite Hfix in Hrun. lia.
Qed.

End FillFacts.

(** ** The exception monad *)

Module ResFacts.

Lemma bind_Ok {A B} (m : res A) (k : A -> res B) b :
  m ≫= k = Ok b -> exists a, m = Ok a /\ k a = Ok b.
Proof. destruct m as [a| |]; try discriminate. intros H. now exists a. Qed.

Lemma bind_Raise {A B} (m : res A) (k : A -> res B) e :
  m ≫= k = Raise e -> m = Raise e \/ exists a, m = Ok a /\ k a = Raise e.
Proof.
  destruct m as [a|e'|]; try discriminate; intros H.
  - right. now exists a.
  - left. change (@Raise B e' = Raise e) in H. now inversion H.
Qed.

Lemma bind_Diverged {A B} (m : res A) (k : A -> res B) :
  m ≫= k = Diverged -> m = Diverged \/ exists a, m = Ok a /\ k a = Diverged.
Proof.
  destruct m as [a|e'|]; try discriminate; intros H.
  - right. now exists a.
  - now left.
Qed.

Lemma fmap_Ok {A B} (f : A -> B) (m : res A) b :
  f <$> m = Ok b -> exists a, m = Ok a /\ b = f a.
Proof.
  destruct m as [a| |]; try discriminate. intros H.
  exists a. split; [reflexivity|]. now inversion H.
Qed.

End ResFacts.

(** ** The JSON scanner *)

Module JsonFacts.
Import Json ResFacts.
#[local] Open Scope N_scope.

Lemma skip_ws_length s : (length (skip_ws s) <= length s)%nat.
Proof.
  induction s as [|c s IH]; simpl; [lia|].
  destruct (json_ws c); simpl; lia.
Qed.

Lemma skip_ws_head c s : json_ws c = false -> skip_ws (c :: s) = c :: s.
Proof. intros H. simpl. now rewrite H. Qed.

Lemma push_Some c x v r :
  push c x = Some (v, r) -> exists v', x = Some (v', r).
Proof. destruct x as [[v' r']|]; simpl; intros H; [|discriminate]. inversion H. eauto. Qed.

(** Every successful scan consumes input. *)
Lemma scanstring_length s v r :
  scanstring s = Some (v, r) -> (length r < length s)%nat.
Proof.
  remember (length s) as n eqn:Hn. revert s v r Hn.
  induction n as [n IH] using lt_wf_ind. intros s v r Hn H. subst n.
  assert (Hpush : forall c s' v r,
             (length s' < length s)%nat ->
             push c (scanstring s') = Some (v, r) -> (length r < length s)%nat).
  { intros c s' v0 r0 Hlt Hp. apply push_Some in Hp as (v' & Hp).
    specialize (IH _ Hlt s' v' r0 eq_refl Hp). lia. }
  destruct s as [|c s1]; [discriminate|].
  cbn [scanstring] in H.
  repeat (case_match; try discriminate; subst);
    try (inversion H; subst; simpl; lia);
    try (eapply Hpush; [|exact H]; simpl; lia).
Qed.

Lemma span_digits_length s ds r :
  span_digits s = (ds, r) -> length s = (length ds + length r)%nat.
Proof.
  revert ds r. induction s as [|c s IH]; simpl; intros ds r H.
  - inversion H. reflexivity.
  - destruct (is_digit c).
    + destruct (span_digits s) as [ds' r'] eqn:E. inversion H; subst.
      rewrite (IH _ _ eq_refl). simpl. lia.
    + inversion H. subst. simpl. lia.
Qed.

Lemma match_frac_length s f r :
  match_frac s = (f, r) -> (length r <= length s)%nat.
Proof.
  unfold match_frac. intros H.
  repeat (case_match; subst); inversion H; subst; try lia;
    match goal with E : span_digits _ = _ |- _ =>
      apply span_digits_length in E; simpl in *; lia end.
Qed.

Lemma match_exp_length s e r :
  match_exp s = (e, r) -> (length r <= length s)%nat.
Proof.
  unfold match_exp. intros H.
  repeat (case_match; subst); simplify_eq; try lia;
    match goal with E : span_digits _ = _ |- _ =>
      apply span_digits_length in E; simpl in *; lia end.
Qed.

Lemma match_number_length s v r :
  match_number s = Some (v, r) -> (length r < length s)%nat.
Proof.
  unfold match_number. intros H.
  repeat (case_match; subst); simplify_eq;
    repeat match goal with
      | E : span_digits _ = _ |- _ => apply span_digits_length in E
      | E : match_frac _ = _ |- _ => apply match_frac_length in E
      | E : match_exp _ = _ |- _ => apply match_exp_length in E
      end; simpl in *; lia.
Qed.

Lemma strip_prefix_length p s r :
  strip_prefix p s = Some r -> length s = (length p + length r)%nat.
Proof.
  revert s. induction p as [|a p IH]; intros [|b s] H; simpl in *;
    try discriminate; try (inversion H; reflexivity).
  destruct (a =? b); [|discriminate]. now rewrite (IH _ H).
Qed.

Lemma keyword_length w j s v r :
  keyword w j s = Some (v, r) -> w <> ""%string -> (length r < length s)%nat.
Proof.
  unfold keyword. intros H Hw.
  destruct (strip_prefix (lit w) s) as [r'|] eqn:E; [|discriminate].
  simpl in H. inversion H; subst.
  apply strip_prefix_length in E. destruct w; [congruence|].
  unfold lit in E. simpl in E. lia.
Qed.

Lemma scan_atom_length s v r :
  scan_atom s = Some (v, r) -> (length r < length s)%nat.
Proof.
  unfold scan_atom. intros H.
  destruct s as [|c s']; [discriminate|].
  repeat (case_match; subst); simplify_eq;
    try (eapply keyword_length; [eassumption|discriminate]);
    try (eapply match_number_length; eassumption).
  - destruct (scanstring s') as [[v' r']|] eqn:E; [|discriminate].
    simpl in H. inversion H; subst. apply scanstring_length in E. simpl. lia.
Qed.

Lemma scan_consumes fuel :
  (forall s, consumes (scan_once fuel s) s)
  /\ (forall acc s, consumes (JSONArray fuel acc s) s)
  /\ (forall acc s, consumes (JSONObject fuel acc s) s).
Proof.
  unfold consumes.
  induction fuel as [|fuel (IHv & IHa & IHo)];
    [repeat split; intros; discriminate|].
  repeat split.
  - intros s v r H. cbn [scan_once] in H.
    destruct s as [|c s1]; [discriminate|].
    pose proof (skip_ws_length s1) as Hw.
    repeat (case_match; subst); simplify_eq; cbn [length] in *; try lia.
    + apply IHo in H. cbn [length] in *. lia.
    + apply IHa in H. cbn [length] in *. lia.
    + match goal with E : scan_atom _ = _ |- _ =>
        apply scan_atom_length in E; cbn [length] in E; lia end.
  - intros acc s v r H. cbn [JSONArray] in H.
    apply bind_Ok in H as ([v1 s1] & Hv & H). apply IHv in Hv.
    pose proof (skip_ws_length s1) as Hw.
    destruct (skip_ws s1) as [|c s2]; [discriminate|].
    destruct (eqc "]" c).
    + inversion H; subst. cbn [length] in *. lia.
    + destruct (eqc "," c); [|discriminate].
      apply IHa in H. pose proof (skip_ws_length s2). cbn [length] in *. lia.
  - intros acc s v r H. cbn [JSONObject] in H.
    destruct s as [|q s1]; [discriminate|].
    destruct (q =? DQUOTE); [|discriminate].
    destruct (scanstring s1) as [[key s2]|] eqn:Ek; [|discriminate].
    apply scanstring_length in Ek.
    pose proof (skip_ws_length s2) as Hw2.
    destruct (skip_ws s2) as [|colon s3]; [discriminate|].
    destruct (eqc ":" colon); [|discriminate].
    apply bind_Ok in H as ([v1 s4] & Hv & H). apply IHv in Hv.
    pose proof (skip_ws_length s3) as Hw3.
    pose proof (skip_ws_length s4) as Hw4.
    destruct (skip_ws s4) as [|c s5]; [discriminate|].
    destruct (eqc "}" c).
    + inversion H; subst. cbn [length] in *. lia.
    + destruct (eqc "," c); [|discriminate].
      apply IHo in H. pose proof (skip_ws_length s5). cbn [length] in *. lia.
Qed.

(** With two units of fuel per character the scanner never runs dry. *)
Lemma scan_fuel fuel :
  (forall s, (2 * length s < fuel)%nat -> scan_once fuel s <> Diverged)
  /\ (forall acc s, (2 * length s + 1 < fuel)%nat -> JSONArray fuel acc s <> Diverged)
  /\ (forall acc s, (2 * length s + 1 < fuel)%nat -> JSONObject fuel acc s <> Diverged).
Proof.
  induction fuel as [|fuel (IHv & IHa & IHo)]; [repeat split; intros; lia|].
  destruct (scan_consumes fuel) as (Cv & Ca & Co).
  repeat split.
  - intros s Hf H. cbn [scan_once] in H.
    destruct s as [|c s1]; [discriminate|].
    pose proof (skip_ws_length s1) as Hw. cbn [length] in Hf.
    repeat (case_match; subst); simplify_eq.
    + revert H. apply IHo. cbn [length] in *. lia.
    + revert H. apply IHa. cbn [length] in *. lia.
  - intros acc s Hf H. cbn [JSONArray] in H.
    apply bind_Diverged in H as [H|([v1 s1] & Hv & H)].
    + revert H. apply IHv. lia.
    + apply Cv in Hv. pose proof (skip_ws_length s1) as Hw.
      destruct (skip_ws s1) as [|c s2]; [discriminate|].
      destruct (eqc "]" c); [discriminate|].
      destruct (eqc "," c); [|discriminate].
      revert H. apply IHa. pose proof (skip_ws_length s2).
      cbn [length] in *. lia.
  - intros acc s Hf H. cbn [JSONObject] in H.
    destruct s as [|q s1]; [discriminate|].
    destruct (q =? DQUOTE); [|discriminate].
    destruct (scanstring s1) as [[key s2]|] eqn:Ek; [|discriminate].
    apply scanstring_length in Ek.
    pose proof (skip_ws_length s2) as Hw2.
    destruct (skip_ws s2) as [|colon s3]; [discriminate|].
    destruct (eqc ":" colon); [|discriminate].
    pose proof (skip_ws_length s3) as Hw3. cbn [length] in *.
    apply bind_Diverged in H as [H|([v1 s4] & Hv & H)].
    + revert H. apply IHv. lia.
    + apply Cv in Hv. pose proof (skip_ws_length s4) as Hw4.
      destruct (skip_ws s4) as [|c s5]; [discriminate|].
      destruct (eqc "}" c); [discriminate|].
      destruct (eqc "," c); [|discriminate].
      revert H. apply IHo. pose proof (skip_ws_length s5).
      cbn [length] in *. lia.
Qed.

(** The scanner raises nothing but [JSONDecodeError]. *)
Lemma scan_raises fuel :
  (forall s e, scan_once fuel s = Raise e -> e = JSONDecodeError)
  /\ (forall acc s e, JSONArray fuel acc s = Raise e -> e = JSONDecodeError)
  /\ (forall acc s e, JSONObject fuel acc s = Raise e -> e = JSONDecodeError).
Proof.
  induction fuel as [|fuel (IHv & IHa & IHo)];
    [repeat split; intros; discriminate|].
  repeat split.
  - intros s e H. cbn [scan_once] in H. unfold decode_error in H.
    repeat (case_match; subst); simplify_eq; eauto.
  - intros acc s e H. cbn [JSONArray] in H. unfold decode_error in H.
    apply bind_Raise in H as [H|([v1 s1] & Hv & H)]; [eauto|].
    repeat (case_match; subst); simplify_eq; eauto.
  - intros acc s e H. cbn [JSONObject] in H. unfold decode_error in H.
    repeat (case_match; subst); simplify_eq; eauto.
    apply bind_Raise in H as [H|([v1 s4] & Hv & H)]; [eauto|].
    repeat (case_match; subst); simplify_eq; eauto.
Qed.

(** [json.loads] returns a value or raises [JSONDecodeError]. *)
Lemma json_loads_cases s :
  (exists v, json_loads s = Ok v) \/ json_loads s = Raise JSONDecodeError.
Proof.
  unfold json_loads, decode_error.
  destruct (startswith [65279] s); [now right|].
  destruct (scan_once (enough_fuel (skip_ws s)) (skip_ws s)) as [[v r]|e|] eqn:E.
  - simpl. destruct (skip_ws r); eauto.
  - apply (proj1 (scan_raises _)) in E. subst. now right.
  - exfalso. revert E. apply (proj1 (scan_fuel _)). unfold enough_fuel. lia.
Qed.

(** An array is what a text that starts with a bracket decodes to. *)
Lemma JSONArray_list fuel acc s v r :
  JSONArray fuel acc s = Ok (v, r) -> exists l, v = JList l.
Proof.
  revert acc s. induction fuel as [|fuel IH]; intros acc s H; [discriminate|].
  cbn [JSONArray] in H.
  apply bind_Ok in H as ([v1 s1] & _ & H).
  repeat (case_match; subst); simplify_eq; eauto.
Qed.

Lemma json_loads_bracket s v :
  json_loads (chr "[" :: s) = Ok v -> exists l, v = JList l.
Proof.
  unfold json_loads. rewrite skip_ws_head by reflexivity.
  destruct (startswith _ _); [discriminate|].
  intros H. apply bind_Ok in H as ([v1 s1] & Hv & H).
  assert (v1 = v) by (destruct (skip_ws s1); simplify_eq; reflexivity). subst v1.
  unfold enough_fuel in Hv. replace (2 * length (chr "[" :: s) + 1)%nat
    with (S (2 * length (chr "[" :: s))) in Hv by lia.
  cbn [scan_once] in Hv.
  change (eqc "{" (chr "[")) with false in Hv.
  change (eqc "[" (chr "[")) with true in Hv. cbv iota in Hv.
  repeat (case_match; subst); simplify_eq; eauto.
  eapply JSONArray_list; eassumption.
Qed.

End JsonFacts.

(** ** The chunk-response repairer *)

Module RepairFacts.
Import Json Repair ResFacts JsonFacts.

Lemma try_except_Ok {A} (a : A) e h : try_except (Ok a) e h = Ok a.
Proof. reflexivity. Qed.

Lemma try_except_caught {A} e (h : res A) : try_except (Raise e) e h = h.
Proof. unfold try_except. now destruct e. Qed.

Lemma dict_getitem_in k d :
  dict_in k d = true -> exists v, dict_get k d = Some v /\ dict_getitem d k = Ok v.
Proof.
  unfold dict_in, dict_getitem. destruct (dict_get k d) as [v|]; [eauto|discriminate].
Qed.

Lemma dict_in_false k d : dict_in k d = false -> dict_get k d = None.
Proof. unfold dict_in. now destruct (dict_get k d). Qed.

(** The inner re-parse returns a list or gives up; it never raises. *)
Lemma reparse_cases inner :
  reparse inner = Ok None \/ exists l, reparse inner = Ok (Some (JList l)).
Proof.
  destruct inner as [| | | |s| |]; try (now left).
  unfold reparse.
  destruct (json_loads_cases s) as [[v ->]| ->].
  - destruct v; try (now left). right. eauto.
  - left. reflexivity.
Qed.


Lemma search_brackets_head s m :
  search_brackets s = Some m -> exists m', m = chr "[" :: m'.
Proof.
  induction s as [|c s IH]; [discriminate|].
  simpl. destruct (eqc "[" c) eqn:Ec; [|exact IH].
  destruct (upto_last (chr "]") s) as [p|]; [|exact IH].
  intros H. inversion H. apply FillFacts.eqc_true in Ec. subst c. eauto.
Qed.

(** The body of the outer [try] returns a list, or [json.loads] raised. *)
Lemma parse_body_cases text :
  (exists l, parse_body text = Ok (JList l))
  \/ (json_loads text = Raise JSONDecodeError /\ parse_body text = Raise JSONDecodeError).
Proof.
  unfold parse_body.
  destruct (json_loads_cases text) as [[data ->]| ->]; [left|right; split; reflexivity].
  change (Ok data ≫= ?k) with (k data). cbv beta.
  destruct data as [| | | | |l|d]; eauto.
  - (* a list *)
    assert (Hguard : forall (m : res (option json)),
               (m = Ok None \/ exists p, m = Ok (Some (JList p))) ->
               exists l', (returned ← m;
                           match returned with
                           | Some parsed => Ok parsed
                           | None => Ok (JList l)
                           end) = Ok (JList l')).
    { intros m [->|[p ->]]; eauto. }
    apply Hguard.
    destruct l as [|[| | | | | |d0] [|]]; try (now left).
    destruct (dict_in (lit "text") d0) eqn:Ht; [|now left].
    destruct (dict_in (lit "bbox") d0); [now left|].
    destruct (dict_getitem_in _ _ Ht) as (inner & _ & ->).
    apply reparse_cases.
  - (* an object *)
    destruct (dict_in (lit "text") d) eqn:Ht; [|eauto].
    destruct (dict_getitem_in _ _ Ht) as (inner & _ & ->).
    change (Ok inner ≫= ?k) with (k inner). cbv beta.
    destruct (reparse_cases inner) as [E|[p E]];
      destruct inner; try rewrite E; eauto.
Qed.

(** The handler returns a list: what the bracketed text decodes to, or the
    chunk of last resort. *)
Lemma last_resort_spec raw text :
  last_resort raw text =
  Ok match spec_step3 text with
     | Some r => r
     | None => JList [fallback raw]
     end.
Proof.
  unfold last_resort, spec_step3.
  destruct (search_brackets text) as [m|] eqn:Em; [|reflexivity].
  destruct (search_brackets_head _ _ Em) as [m' ->].
  destruct (json_loads_cases (chr "[" :: m')) as [[v E]|E]; rewrite E.
  - destruct (json_loads_bracket _ _ E) as [l ->]. reflexivity.
  - reflexivity.
Qed.

Lemma spec_step3_list text r : spec_step3 text = Some r -> exists l, r = JList l.
Proof.
  unfold spec_step3. intros H.
  repeat (case_match; subst); simplify_eq. eauto.
Qed.

Lemma parse_bbox_response_list raw :
  exists l, parse_bbox_response raw = Ok (JList l).
Proof.
  unfold parse_bbox_response.
  destruct (parse_body_cases (strip_fences raw)) as [[l ->]|[_ ->]]; [eauto|].
  rewrite try_except_caught, last_resort_spec.
  destruct (spec_step3 (strip_fences raw)) as [r|] eqn:E; [|eauto].
  destruct (spec_step3_list _ _ E) as [l ->]. eauto.
Qed.

Lemma parse_bbox_response_undecodable raw :
  json_loads (strip_fences raw) = Raise JSONDecodeError ->
  parse_bbox_response raw =
  Ok match spec_step3 (strip_fences raw) with
     | Some r => r
     | None => JList [fallback raw]
     end.
Proof.
  intros E. unfold parse_bbox_response, parse_body. rewrite E.
  change (Raise JSONDecodeError ≫= _) with (@Raise json JSONDecodeError).
  now rewrite try_except_caught, last_resort_spec.
Qed.




End RepairFacts.

(** ** The page-range resolver *)

Module PagesFacts.
Import Pages ResFacts.
#[local] Open Scope Z_scope.

Lemma sorted_elem (pages : gset Z) p : p ∈ sorted pages <-> p ∈ pages.
Proof.
  unfold sorted. rewrite merge_sort_Permutation. apply elem_of_elements.
Qed.

Lemma strict_of_NoDup (l : list Z) :
  StronglySorted Z.le l -> NoDup l -> StronglySorted Z.lt l.
Proof.
  induction 1 as [|x l Hs IH Hx]; intros Hnd; constructor.
  - apply IH. now apply NoDup_cons_1_2 in Hnd.
  - apply NoDup_cons in Hnd as [Hnot _].
    rewrite List.Forall_forall in *. intros y Hy.
    specialize (Hx y Hy).
    assert (x <> y) by (intros ->; apply Hnot, list_elem_of_In, Hy).
    lia.
Qed.

Lemma sorted_strict (pages : gset Z) : StronglySorted Z.lt (sorted pages).
Proof.
  apply strict_of_NoDup.
  - unfold sorted. apply StronglySorted_merge_sort; apply _.
  - unfold sorted. rewrite merge_sort_Permutation. apply NoDup_elements.
Qed.

Lemma elem_of_range a b p : p ∈ range a b <-> a <= p < b.
Proof. unfold range. rewrite elem_of_seqZ. lia. Qed.

(** One token adds its contribution to the set. *)
Lemma parse_part_spec total pages part pages' :
  parse_part total pages part = Ok pages' ->
  forall p, p ∈ pages' <-> p ∈ pages \/ contributes total (strip part) p.
Proof.
  unfold parse_part, contributes.
  destruct (contains (chr "-") (strip part)).
  - destruct (split1 (chr "-") (strip part)) as [|a [|b [|]]]; try discriminate.
    intros H.
    apply bind_Ok in H as (start & Ha & H).
    apply bind_Ok in H as (end_ & Hb & H).
    inversion H; subst. intros p.
    rewrite elem_of_union, elem_of_list_to_set, elem_of_range.
    split.
    + intros [?|?]; [now left|right].
      exists a, b, start, end_. repeat split; auto; lia.
    + intros [?|(a' & b' & s' & e' & Hsplit & Ha' & Hb' & Hp)]; [now left|right].
      simplify_eq. rewrite Ha in Ha'. rewrite Hb in Hb'.
      inversion Ha'. inversion Hb'. subst. lia.
  - intros H. apply bind_Ok in H as (q & Hq & H).
    destruct ((1 <=? q) && (q <=? total)) eqn:Hin; inversion H; subst; intros p.
    + apply andb_true_iff in Hin as [H1 H2].
      apply Z.leb_le in H1, H2.
      rewrite elem_of_union, elem_of_singleton. split.
      * intros [->|?]; [right|now left]. split; [assumption|lia].
      * intros [?|[Hp ?]]; [now right|left]. congruence.
    + split; [now left|]. intros [?|[Hp [H1 H2]]]; [assumption|exfalso].
      assert (q = p) by congruence. subst q.
      apply Z.leb_le in H1, H2. rewrite H1, H2 in Hin. discriminate.
Qed.

Lemma parse_parts_spec total parts :
  forall pages pages',
    parse_parts total pages parts = Ok pages' ->
    forall p, p ∈ pages' <->
              p ∈ pages \/ exists token, token ∈ parts /\ contributes total (strip token) p.
Proof.
  induction parts as [|part parts IH]; intros pages pages' H p.
  - inversion H; subst. split; [now left|].
    intros [?|(token & Hin & _)]; [assumption|]. now apply elem_of_nil in Hin.
  - cbn [parse_parts] in H. apply bind_Ok in H as (pages1 & H1 & H).
    rewrite (IH _ _ H p), (parse_part_spec _ _ _ _ H1 p). split.
    + intros [[?|?]|(token & Hin & Hc)]; [now left|right|right].
      * exists part. split; [apply list_elem_of_here|assumption].
      * exists token. split; [now apply list_elem_of_further|assumption].
    + intros [?|(token & Hin & Hc)]; [now left; left|].
      apply elem_of_cons in Hin as [->|Hin]; [now left; right|].
      right. eauto.
Qed.

Lemma parse_page_range_spec spec total pages :
  parse_page_range spec total = Ok pages ->
  StronglySorted Z.lt pages
  /\ forall p, p ∈ pages <->
               exists token, token ∈ split (chr ",") spec
                             /\ contributes total (strip token) p.
Proof.
  unfold parse_page_range. intros H.
  apply bind_Ok in H as (set & Hset & H). inversion H; subst.
  split; [apply sorted_strict|]. intros p.
  rewrite sorted_elem, (parse_parts_spec _ _ _ _ Hset p).
  split; [intros [Hin|?]; [|assumption]|now right].
  now apply elem_of_empty in Hin.
Qed.

Lemma range_strict a b : StronglySorted Z.lt (range a b).
Proof.
  unfold range, seqZ. generalize (Z.to_nat (b - a)) 0%nat.
  intros k. induction k as [|k IH]; intros i; [constructor|].
  cbn. constructor; [apply IH|].
  apply List.Forall_forall. intros y Hy.
  apply list_elem_of_In, list_elem_of_fmap in Hy as (j & -> & Hj).
  apply elem_of_seq in Hj. lia.
Qed.

(** *** Failure and bounds *)

(** [int] returns or raises [ValueError]. *)
Lemma int_cases s : (exists z, int s = Ok z) \/ int s = Raise ValueError.
Proof.
  unfold int.
  destruct (match strip_by int_space s with
            | [] => None
            | c :: t' =>
                if eqc "+" c then digits 0 false t'
                else if eqc "-" c then Z.opp <$> digits 0 false t'
                else digits 0 false (strip_by int_space s)
            end); eauto.
Qed.

Lemma parse_part_cases total pages part :
  (exists pages', parse_part total pages part = Ok pages')
  \/ parse_part total pages part = Raise ValueError.
Proof.
  unfold parse_part.
  destruct (contains (chr "-") (strip part)).
  - destruct (split1 (chr "-") (strip part)) as [|a [|b [|]]]; try (now right).
    destruct (int_cases a) as [[start ->]| ->]; [|now right].
    destruct (int_cases b) as [[end_ ->]| ->]; [|now right].
    left. eexists. reflexivity.
  - destruct (int_cases (strip part)) as [[q ->]| ->]; [|now right].
    left. change (Ok q ≫= ?k) with (k q). cbv beta.
    destruct ((1 <=? q) && (q <=? total)); eexists; reflexivity.
Qed.

Lemma parse_page_range_cases_parts total parts : forall pages,
  (exists pages', parse_parts total pages parts = Ok pages')
  \/ parse_parts total pages parts = Raise ValueError.
Proof.
  induction parts as [|part parts IH]; intros pages.
  - left. eexists. reflexivity.
  - cbn [parse_parts].
    destruct (parse_part_cases total pages part) as [[pages' ->]| ->]; [|now right].
    change (Ok pages' ≫= ?k) with (k pages'). cbv beta. apply IH.
Qed.

(** The resolver returns a selection or raises [ValueError]. *)
Lemma parse_page_range_cases spec total :
  (exists pages, parse_page_range spec total = Ok pages)
  \/ parse_page_range spec total = Raise ValueError.
Proof.
  unfold parse_page_range.
  generalize (∅ : gset Z). generalize (split (chr ",") spec). intros parts.
  induction parts as [|part parts IH]; intros pages.
  - left. eexists. reflexivity.
  - cbn [parse_parts].
    destruct (parse_part_cases total pages part) as [[pages' ->]| ->]; [|now right].
    change (Ok pages' ≫= ?k) with (k pages'). cbv beta. apply IH.
Qed.

Lemma digits_nonneg s : forall acc seen z,
  0 <= acc -> digits acc seen s = Some z -> 0 <= z.
Proof.
  induction s as [|c s IH]; intros acc seen z Hacc H; simpl in H.
  - destruct seen; inversion H. now subst.
  - destruct (to_decimal c) as [d|] eqn:Ed.
    + eapply IH; [|exact H]. unfold to_decimal in Ed.
      destruct (List.find _ _); inversion Ed. lia.
    + destruct (eqc "_" c && seen); [|discriminate]. eapply IH; eauto.
Qed.

Lemma lstrip_subset space s c : c ∈ lstrip_by space s -> c ∈ s.
Proof.
  induction s as [|d s IH]; simpl; [auto|].
  destruct (space d); [|auto]. intros H. right. auto.
Qed.

Lemma strip_subset space s c : c ∈ strip_by space s -> c ∈ s.
Proof.
  unfold strip_by, rstrip_by. intros H.
  apply list_elem_of_In, in_rev, list_elem_of_In in H.
  apply lstrip_subset in H.
  apply list_elem_of_In, in_rev, list_elem_of_In in H.
  now apply lstrip_subset in H.
Qed.

Lemma contains_elem c s : contains c s = true <-> c ∈ s.
Proof.
  unfold contains. rewrite existsb_exists. split.
  - intros (x & Hin & Heq). apply N.eqb_eq in Heq. subst.
    now apply list_elem_of_In.
  - intros Hin. exists c. split; [now apply list_elem_of_In|apply N.eqb_refl].
Qed.

(** A text without a minus sign denotes no negative integer. *)
Lemma int_nonneg s z : contains (chr "-") s = false -> int s = Ok z -> 0 <= z.
Proof.
  intros Hno. unfold int.
  assert (Hstrip : chr "-" ∉ strip_by int_space s).
  { intros Hin. apply strip_subset, contains_elem in Hin. congruence. }
  destruct (strip_by int_space s) as [|c t] eqn:Et; [discriminate|].
  destruct (eqc "+" c).
  - destruct (digits 0 false t) as [v|] eqn:Ed; [|discriminate].
    intros H. inversion H; subst. eapply digits_nonneg; [|exact Ed]. lia.
  - destruct (eqc "-" c) eqn:Ec.
    + exfalso. apply Hstrip. apply FillFacts.eqc_true in Ec. subst c. left.
    + destruct (digits 0 false (c :: t)) as [v|] eqn:Ed; [|discriminate].
      intros H. inversion H; subst. eapply digits_nonneg; [|exact Ed]. lia.
Qed.

Lemma split1_head sep s a rest :
  split1 sep s = a :: rest -> contains sep a = false.
Proof.
  revert a rest. induction s as [|c s IH]; intros a rest H; simpl in H.
  - inversion H. reflexivity.
  - destruct (N.eqb_spec c sep) as [->|Hne].
    + inversion H. reflexivity.
    + destruct (split1 sep s) as [|h t] eqn:E.
      * inversion H; subst. simpl. rewrite orb_false_r.
        apply N.eqb_neq. congruence.
      * inversion H; subst. simpl. rewrite (IH _ _ eq_refl), orb_false_r.
        apply N.eqb_neq. congruence.
Qed.

(** What does hold of every selection: no page above [total], none below 0. *)
Lemma parse_page_range_bounds spec total pages :
  parse_page_range spec total = Ok pages ->
  forall p, p ∈ pages -> 0 <= p <= total.
Proof.
  intros H p Hp.
  apply parse_page_range_spec in H as [_ H].
  apply H in Hp as (token & _ & Hc). unfold contributes in Hc.
  destruct (contains (chr "-") (strip token)).
  - destruct Hc as (a & b & start & end_ & Hsplit & Ha & _ & Hrange).
    apply split1_head in Hsplit. pose proof (int_nonneg _ _ Hsplit Ha). lia.
  - lia.
Qed.

(** *** Tokens, one by one *)

(** Whether a token is rejected depends neither on the pages gathered so
    far nor on the number of pages. *)
Lemma parse_part_rejects total pages total' pages' part :
  parse_part total pages part = Raise ValueError ->
  parse_part total' pages' part = Raise ValueError.
Proof.
  unfold parse_part.
  destruct (contains (chr "-") (strip part)).
  - destruct (split1 (chr "-") (strip part)) as [|a [|b [|]]]; try reflexivity.
    destruct (int_cases a) as [[start ->]| ->]; [|reflexivity].
    destruct (int_cases b) as [[end_ ->]| ->]; [|reflexivity].
    discriminate.
  - destruct (int_cases (strip part)) as [[q ->]| ->]; [|reflexivity].
    change (Ok q ≫= ?k) with (k q). cbv beta.
    destruct ((1 <=? q) && (q <=? total)); discriminate.
Qed.

Lemma parse_parts_rejects total parts : forall pages,
  parse_parts total pages parts = Raise ValueError <->
  exists part, part ∈ parts /\ parse_part total ∅ part = Raise ValueError.
Proof.
  induction parts as [|part parts IH]; intros pages.
  - split; [discriminate|]. intros (part & Hin & _). now apply elem_of_nil in Hin.
  - cbn [parse_parts].
    destruct (parse_part_cases total pages part) as [[pages' E]|E]; rewrite E.
    + change (Ok pages' ≫= ?k) with (k pages'). cbv beta. rewrite IH. split.
      * intros (q & Hin & Hq). exists q. split; [now right|exact Hq].
      * intros (q & Hin & Hq). apply elem_of_cons in Hin as [->|Hin].
        -- apply (parse_part_rejects _ _ total pages) in Hq. congruence.
        -- eauto.
    + split; [|reflexivity]. intros _. exists part. split; [left|].
      now apply (parse_part_rejects total pages).
Qed.

(** Two selectors with the same tokens resolve alike. *)
Lemma parse_parts_same_tokens total parts1 parts2 :
  (forall t, t ∈ parts1 <-> t ∈ parts2) ->
  parse_parts total ∅ parts1 = parse_parts total ∅ parts2.
Proof.
  intros Hsame.
  destruct (parse_parts total ∅ parts1) as [set1|e1|] eqn:E1.
  - destruct (parse_parts total ∅ parts2) as [set2|e2|] eqn:E2.
    + f_equal. apply set_eq. intros p.
      rewrite (parse_parts_spec _ _ _ _ E1 p), (parse_parts_spec _ _ _ _ E2 p).
      split; (intros [?|(t & Hin & Hc)]; [now left|right; exists t; split; [now apply Hsame|exact Hc]]).
    + exfalso.
      assert (E2' : parse_parts total ∅ parts2 = Raise ValueError).
      { pose proof (parse_page_range_cases_parts total parts2 ∅) as [[? E]|E]; congruence. }
      apply parse_parts_rejects in E2' as (q & Hin & Hq).
      assert (E1' : parse_parts total ∅ parts1 = Raise ValueError).
      { apply parse_parts_rejects. exists q. split; [now apply Hsame|exact Hq]. }
      congruence.
    + exfalso. pose proof (parse_page_range_cases_parts total parts2 ∅) as [[? E]|E]; congruence.
  - assert (e1 = ValueError) as ->.
    { pose proof (parse_page_range_cases_parts total parts1 ∅) as [[? E]|E]; congruence. }
    apply parse_parts_rejects in E1 as (q & Hin & Hq). symmetry.
    apply parse_parts_rejects. exists q. split; [now apply Hsame|exact Hq].
  - exfalso. pose proof (parse_page_range_cases_parts total parts1 ∅) as [[? E]|E]; congruence.
Qed.

(** A smaller page count keeps what a larger one selects, cut at it. *)
Lemma contributes_cut total total' token p :
  total <= total' ->
  contributes total token p <-> contributes total' token p /\ p <= total.
Proof.
  intros Hle. unfold contributes.
  destruct (contains (chr "-") token).
  - split.
    + intros (a & b & s & e & Hs & Ha & Hb & Hp).
      split; [exists a, b, s, e; repeat split; auto; lia|lia].
    + intros [(a & b & s & e & Hs & Ha & Hb & Hp) Hpt].
      exists a, b, s, e. repeat split; auto; lia.
  - split; [intros (Hi & Hp); repeat split; auto; lia|].
    intros [(Hi & Hp) Hpt]. split; [exact Hi|lia].
Qed.

End PagesFacts.

(** ** The stream aggregator *)

Module StreamFacts.
Import Stream.

Lemma consume_spec st chunk :
  consume st chunk =
  (fst st ++ option_list (truthy (text_delta chunk)),
   match truthy (terminal_reason chunk) with
   | Some r => Some r
   | None => snd st
   end).
Proof.
  unfold consume, text_delta, terminal_reason. destruct st as [parts reason].
  destruct (choices chunk) as [|choice ?]; simpl.
  - now rewrite app_nil_r.
  - destruct (truthy (content (delta choice))); simpl; [reflexivity|].
    now rewrite app_nil_r.
Qed.

Lemma omap_cons {A B} (f : A -> option B) x l :
  omap f (x :: l) = option_list (f x) ++ omap f l.
Proof. simpl. now destruct (f x). Qed.

(** The loop, from any state. *)
Lemma fold_consume stream :
  forall st,
    fold_left consume stream st =
    (fst st ++ omap (fun chunk => truthy (text_delta chunk)) stream,
     match last (omap (fun chunk => truthy (terminal_reason chunk)) stream) with
     | Some r => Some r
     | None => snd st
     end).
Proof.
  induction stream as [|chunk stream IH]; intros st.
  - simpl. rewrite app_nil_r. now destruct st.
  - cbn [fold_left]. rewrite IH, consume_spec, !omap_cons. cbn [fst snd].
    rewrite <- app_assoc. f_equal.
    destruct (truthy (terminal_reason chunk)) as [r|]; cbn [option_list app].
    + change (option_list (Some r) ++ ?l) with (r :: l).
      rewrite last_cons. now destruct (last _).
    + reflexivity.
Qed.

(** Empty deltas add nothing to the text. *)
Lemma concat_truthy stream :
  concat (omap (fun chunk => truthy (text_delta chunk)) stream)
  = concat (omap text_delta stream).
Proof.
  induction stream as [|chunk stream IH]; [reflexivity|].
  rewrite !omap_cons, !concat_app, IH. f_equal.
  now destruct (text_delta chunk) as [[|c d]|].
Qed.

Lemma truthy_id o : o <> Some [] -> truthy o = o.
Proof. destruct o as [[|]|]; try reflexivity. congruence. Qed.

Lemma reasons_truthy stream :
  well_formed stream ->
  omap (fun chunk => truthy (terminal_reason chunk)) stream
  = omap terminal_reason stream.
Proof.
  induction 1 as [|chunk stream Hc _ IH]; [reflexivity|].
  rewrite !omap_cons. now rewrite (truthy_id _ Hc), IH.
Qed.

Lemma ocr_image_base64_spec stream max_tokens :
  well_formed stream ->
  ocr_image_base64 stream max_tokens =
  (if decide (last_reason stream = Some (lit "length"))
   then [TruncationWarning max_tokens] else [],
   concat (omap text_delta stream)).
Proof.
  intros Hwf. unfold ocr_image_base64, last_reason.
  rewrite fold_consume, (reasons_truthy _ Hwf). cbn [fst snd app].
  rewrite concat_truthy.
  now destruct (last (omap terminal_reason stream)).
Qed.

End StreamFacts.

(** ** The json branch of [main] *)

Module MainFacts.
Import Json Repair Main ResFacts.

Lemma normalize_regions_list l r :
  normalize_regions (JList l) = Ok r -> exists chunks, r = JList chunks.
Proof.
  unfold normalize_regions. intros H.
  apply fmap_Ok in H as (chunks & _ & ->). eauto.
Qed.

Lemma page_regions_list raw r :
  page_regions raw = Ok r -> exists chunks, r = JList chunks.
Proof.
  unfold page_regions. intros H. apply bind_Ok in H as (regions & Hp & H).
  destruct (RepairFacts.parse_bbox_response_list raw) as [l Hl].
  rewrite Hl in Hp. inversion Hp; subst. eapply normalize_regions_list, H.
Qed.

Lemma process_page_spec acc label raw results :
  process_page acc label raw = Ok results ->
  exists entry, results = acc ++ [entry] /\ entry_of (label, raw) entry.
Proof.
  unfold process_page. intros H.
  apply bind_Ok in H as (regions & Hp & H).
  apply bind_Ok in H as (regions' & Hn & H). inversion H; subst.
  assert (Hr : page_regions raw = Ok regions').
  { unfold page_regions. rewrite Hp. exact Hn. }
  destruct (page_regions_list _ _ Hr) as [chunks ->].
  eexists. split; [reflexivity|]. exists chunks. split; [exact Hr|reflexivity].
Qed.

Lemma process_pages_spec pages :
  forall acc results,
    process_pages acc pages = Ok results ->
    exists entries, results = acc ++ entries /\ Forall2 entry_of pages entries.
Proof.
  induction pages as [|[label raw] pages IH]; intros acc results H.
  - inversion H; subst. exists []. split; [now rewrite app_nil_r|constructor].
  - cbn [process_pages] in H. apply bind_Ok in H as (acc1 & H1 & H).
    apply process_page_spec in H1 as (entry & -> & He).
    apply IH in H as (entries & -> & Hes).
    exists (entry :: entries). split; [now rewrite <- app_assoc|].
    now constructor.
Qed.

End MainFacts.

(** ** The text branch of [main] *)

Module CleanFacts.
Import Fill Clean.
#[local] Arguments Nat.leb : simpl never.

Lemma re_sub_skip m repl k s :
  re_sub m repl k s = re_sub m repl 0 (skipn k s).
Proof.
  revert k. induction s as [|c s IH]; intros [|k]; try reflexivity.
  cbn [re_sub skipn]. apply IH.
Qed.

(** Everything the scan emits is a character of the text or of [repl]. *)
Lemma re_sub_subset m repl s : forall k x,
  x ∈ re_sub m repl k s -> x ∈ repl \/ x ∈ s.
Proof.
  induction s as [|c s IH]; intros k x Hx; [now apply elem_of_nil in Hx|].
  cbn [re_sub] in Hx. destruct k as [|k].
  - destruct (m (c :: s)) as [[|j]|].
    + apply elem_of_cons in Hx as [->|Hx]; [right; left|].
      destruct (IH _ _ Hx); [now left|right; now right].
    + apply elem_of_app in Hx as [Hx|Hx]; [now left|].
      destruct (IH _ _ Hx); [now left|right; now right].
    + apply elem_of_cons in Hx as [->|Hx]; [right; left|].
      destruct (IH _ _ Hx); [now left|right; now right].
  - destruct (IH _ _ Hx); [now left|right; now right].
Qed.

(** *** Tags *)

Lemma upto_gt_pos s n : upto_gt s = Some n -> 1 <= n.
Proof.
  revert n. induction s as [|c s IH]; intros n H; [discriminate|].
  simpl in H. destruct (eqc ">" c); [inversion H; lia|].
  destruct (upto_gt s) as [j|]; [|discriminate]. inversion H. lia.
Qed.

Lemma upto_gt_None s : upto_gt s = None <-> chr ">" ∉ s.
Proof.
  induction s as [|c s IH]; simpl.
  - split; [intros _ H; now apply elem_of_nil in H|reflexivity].
  - destruct (eqc ">" c) eqn:Ec.
    + apply FillFacts.eqc_true in Ec. subst. split; [discriminate|].
      intros H. exfalso. apply H. left.
    + split.
      * intros H. destruct (upto_gt s); [discriminate|].
        intros Hin. apply elem_of_cons in Hin as [E|Hin].
        -- symmetry in E. apply FillFacts.eqc_true in E. congruence.
        -- now apply (proj1 IH).
      * intros H. rewrite (proj2 IH); [reflexivity|].
        intros Hin. apply H. now right.
Qed.

Lemma upto_gt_one s : upto_gt s = Some 1 -> exists s', s = chr ">" :: s'.
Proof.
  destruct s as [|c s]; [discriminate|]. simpl.
  destruct (eqc ">" c) eqn:Ec.
  - apply FillFacts.eqc_true in Ec. subst. eauto.
  - destruct (upto_gt s) as [j|] eqn:E; [|discriminate].
    intros H. inversion H. subst. apply upto_gt_pos in E. lia.
Qed.

Lemma upto_gt_body body post :
  chr ">" ∉ body -> upto_gt (body ++ chr ">" :: post) = Some (S (length body)).
Proof.
  induction body as [|c body IH]; intros Hno; [reflexivity|].
  simpl. destruct (eqc ">" c) eqn:Ec.
  - apply FillFacts.eqc_true in Ec. subst. exfalso. apply Hno. left.
  - rewrite IH; [reflexivity|]. intros Hin. apply Hno. now right.
Qed.

Lemma tag_match_shape s n : tag_match s = Some n -> 3 <= n.
Proof.
  destruct s as [|c s]; [discriminate|]. simpl.
  destruct (eqc "<" c); [|discriminate].
  destruct (upto_gt s) as [[|[|k]]|]; try discriminate.
  intros H. inversion H. lia.
Qed.

Lemma has_tag_tagged s : has_tag s -> tagged s = true.
Proof.
  intros (pre & body & post & Hne & Hno & ->).
  induction pre as [|a pre IH].
  - cbn [app tagged tag_match].
    change (eqc "<" (chr "<")) with true. cbv iota.
    rewrite (upto_gt_body _ _ Hno).
    destruct body; [congruence|reflexivity].
  - cbn [app tagged]. rewrite IH. now destruct (tag_match _).
Qed.

(** After the scan no position starts a tag. *)
Lemma strip_tags_untagged s : forall k,
  tagged (re_sub tag_match (lit " ") k s) = false.
Proof.
  induction s as [|c s IH]; intros k; [reflexivity|].
  cbn [re_sub]. destruct k as [|k]; [|apply IH].
  destruct (tag_match (c :: s)) as [[|j]|] eqn:E.
  - apply tag_match_shape in E. lia.
  - change (lit " " ++ ?l) with (chr " " :: l).
    cbn [tagged tag_match]. change (eqc "<" (chr " ")) with false.
    cbv iota. apply IH.
  - cbn [tagged tag_match]. rewrite IH.
    destruct (eqc "<" c) eqn:Ec; [|reflexivity].
    cbn [tag_match] in E. rewrite Ec in E.
    destruct (upto_gt s) as [[|[|j]]|] eqn:Eu; try discriminate.
    + apply upto_gt_pos in Eu. lia.
    + apply upto_gt_one in Eu as [s' ->].
      cbn [re_sub tag_match]. change (eqc "<" (chr ">")) with false.
      cbv iota. cbn [upto_gt]. change (eqc ">" (chr ">")) with true.
      reflexivity.
    + assert (Hno : upto_gt (re_sub tag_match (lit " ") 0 s) = None).
      { apply upto_gt_None. intros Hin.
        apply re_sub_subset in Hin as [Hin|Hin].
        - apply list_elem_of_singleton in Hin. discriminate.
        - now apply upto_gt_None in Eu. }
      now rewrite Hno.
Qed.

Lemma strip_tags_no_tag raw : ~ has_tag (strip_tags raw).
Proof.
  intros H. apply has_tag_tagged in H.
  unfold strip_tags in H. now rewrite strip_tags_untagged in H.
Qed.

(** A text without [<] goes through unchanged. *)
Lemma strip_tags_plain raw : chr "<" ∉ raw -> strip_tags raw = raw.
Proof.
  unfold strip_tags. induction raw as [|c raw IH]; intros Hno; [reflexivity|].
  cbn [re_sub tag_match].
  destruct (eqc "<" c) eqn:Ec.
  - apply FillFacts.eqc_true in Ec. subst. exfalso. apply Hno. left.
  - rewrite IH; [reflexivity|]. intros Hin. apply Hno. now right.
Qed.

(** *** Spaces *)

Lemma spaced_double s : double_space s <-> spaced s = true.
Proof.
  split.
  - intros (pre & post & ->). induction pre as [|a pre IH].
    + reflexivity.
    + cbn [app spaced]. rewrite IH. apply orb_true_r.
  - induction s as [|c s IH]; [discriminate|].
    cbn [spaced]. intros H. apply orb_true_iff in H as [H|H].
    + apply andb_true_iff in H as [Hc Hs].
      destruct s as [|d s]; [discriminate|]. cbn [hd_space] in Hs.
      apply FillFacts.eqc_true in Hc, Hs. subst. now exists [], s.
    + destruct (IH H) as (pre & post & ->). now exists (c :: pre), post.
Qed.

Lemma run_length_skip c s : run_length c (skipn (run_length c s) s) = 0.
Proof.
  induction s as [|d s IH]; [reflexivity|].
  simpl. destruct (N.eqb d c) eqn:E; simpl; [exact IH|now rewrite E].
Qed.

Lemma hd_space_run s : hd_space s = negb (Nat.eqb (run_length (chr " ") s) 0).
Proof.
  destruct s as [|c s]; [reflexivity|]. simpl. unfold eqc.
  now destruct (N.eqb c (chr " ")).
Qed.

Lemma spaces_match_cons c s :
  spaces_match (c :: s) =
  if eqc " " c && hd_space s then Some (S (run_length (chr " ") s)) else None.
Proof.
  unfold spaces_match. cbn [run_length]. unfold eqc.
  destruct (N.eqb c (chr " ")); [|reflexivity]. cbn [andb].
  rewrite hd_space_run.
  destruct (run_length (chr " ") s) as [|n]; reflexivity.
Qed.

(** The scan keeps the first character a space or not a space. *)
Lemma collapse_hd s : hd_space (collapse_spaces s) = hd_space s.
Proof.
  unfold collapse_spaces. destruct s as [|c s]; [reflexivity|].
  cbn [re_sub]. rewrite spaces_match_cons.
  destruct (eqc " " c && hd_space s) eqn:E; [|reflexivity].
  apply andb_true_iff in E as [Ec _]. cbn [hd_space]. now rewrite Ec.
Qed.

Lemma collapse_unspaced s : forall k,
  spaced (re_sub spaces_match (lit " ") k s) = false.
Proof.
  induction s as [|c s IH]; intros k; [reflexivity|].
  cbn [re_sub]. destruct k as [|k]; [|apply IH].
  rewrite spaces_match_cons.
  destruct (eqc " " c && hd_space s) eqn:E.
  - change (lit " " ++ ?l) with (chr " " :: l).
    cbn [spaced]. rewrite IH, orb_false_r.
    rewrite re_sub_skip. fold (collapse_spaces (skipn (run_length (chr " ") s) s)).
    rewrite collapse_hd, hd_space_run, run_length_skip. reflexivity.
  - cbn [spaced]. rewrite IH, orb_false_r.
    fold (collapse_spaces s). now rewrite collapse_hd.
Qed.

(** What [strip] returns lies inside its argument. *)
Lemma lstrip_by_suffix space s : exists l, s = l ++ lstrip_by space s.
Proof.
  induction s as [|c s [l IH]]; [now exists []|].
  simpl. destruct (space c).
  - exists (c :: l). now rewrite IH at 1.
  - now exists [].
Qed.

Lemma strip_by_inside space s : exists l r, s = l ++ strip_by space s ++ r.
Proof.
  unfold strip_by, rstrip_by.
  destruct (lstrip_by_suffix space s) as [l Hl].
  destruct (lstrip_by_suffix space (rev (lstrip_by space s))) as [r Hr].
  exists l, (rev r). rewrite <- rev_app_distr, <- Hr, rev_involutive. exact Hl.
Qed.

Lemma double_space_inside l s r : double_space s -> double_space (l ++ s ++ r).
Proof.
  intros (pre & post & ->). exists (l ++ pre), (post ++ r).
  now rewrite <- !app_assoc.
Qed.

(** The fill-zone scan keeps the first character a space or not a space,
    and makes no two spaces meet. *)
Lemma fill_sub_hd s : hd_space (normalize_fill_zones s) = hd_space s.
Proof.
  destruct s as [|c s]; [reflexivity|].
  rewrite FillFacts.normalize_cons.
  destruct (is_fill c && (3 <=? run_length c s)) eqn:E; [|reflexivity].
  apply andb_true_iff in E as [Ec _]. cbn [hd_space].
  unfold is_fill, eqc in *.
  destruct (N.eqb_spec c (chr " ")) as [->|]; [discriminate|reflexivity].
Qed.

Lemma fill_sub_unspaced s : spaced s = false -> forall k,
  spaced (fill_sub (lit "___") k s) = false.
Proof.
  induction s as [|c s IH]; intros Hs k; [reflexivity|].
  cbn [spaced] in Hs. apply orb_false_iff in Hs as [Hc Hs].
  cbn [fill_sub]. destruct k as [|k]; [|now apply IH].
  destruct (fill_match (c :: s)) as [[|j]|].
  - cbn [spaced]. rewrite (IH Hs), orb_false_r.
    fold (normalize_fill_zones s). now rewrite fill_sub_hd.
  - change (lit "___" ++ ?l) with (chr "_" :: chr "_" :: chr "_" :: l).
    cbn [spaced hd_space]. change (eqc " " (chr "_")) with false.
    cbn [andb orb]. now apply IH.
  - cbn [spaced]. rewrite (IH Hs), orb_false_r.
    fold (normalize_fill_zones s). now rewrite fill_sub_hd.
Qed.

Lemma clean_text_unspaced raw : ~ double_space (clean_text raw).
Proof.
  intros H. apply spaced_double in H. unfold clean_text in H.
  unfold normalize_fill_zones in H. rewrite fill_sub_unspaced in H; [discriminate|].
  destruct (spaced (strip (collapse_spaces (strip_tags raw)))) eqn:E; [|reflexivity].
  exfalso. apply spaced_double in E.
  destruct (strip_by_inside isspace (collapse_spaces (strip_tags raw))) as (l & r & Hin).
  apply (double_space_inside l _ r) in E. fold (strip (collapse_spaces (strip_tags raw))) in Hin.
  rewrite <- Hin in E. apply spaced_double in E.
  unfold collapse_spaces in E. now rewrite collapse_unspaced in E.
Qed.

(** *** The two ends *)

Lemma lstrip_by_head space s c :
  head (lstrip_by space s) = Some c -> space c = false.
Proof.
  induction s as [|d s IH]; [discriminate|].
  simpl. destruct (space d) eqn:E; [exact IH|].
  intros H. inversion H. now subst.
Qed.

Lemma rstrip_by_prefix space s : exists r, s = rstrip_by space s ++ r.
Proof.
  unfold rstrip_by. destruct (lstrip_by_suffix space (rev s)) as [l Hl].
  exists (rev l). rewrite <- rev_app_distr, <- Hl. now rewrite rev_involutive.
Qed.

Lemma strip_by_ends space s c :
  (head (strip_by space s) = Some c -> space c = false)
  /\ (last (strip_by space s) = Some c -> space c = false).
Proof.
  unfold strip_by. split.
  - destruct (rstrip_by_prefix space (lstrip_by space s)) as [r Hr].
    intros H. apply (lstrip_by_head space s).
    rewrite Hr. destruct (rstrip_by space (lstrip_by space s)); [discriminate|exact H].
  - unfold rstrip_by.
    assert (Hrev : forall l : str, last (rev l) = head l).
    { intros [|d l]; [reflexivity|]. simpl. apply last_snoc. }
    rewrite Hrev. apply lstrip_by_head.
Qed.

Lemma normalize_nil_inv s : normalize_fill_zones s = [] -> s = [].
Proof.
  destruct s as [|c s]; [reflexivity|]. rewrite FillFacts.normalize_cons.
  destruct (is_fill c && (3 <=? run_length c s)); discriminate.
Qed.

Lemma normalize_head s x :
  head (normalize_fill_zones s) = Some x -> x = chr "_" \/ head s = Some x.
Proof.
  destruct s as [|c s]; [discriminate|]. rewrite FillFacts.normalize_cons.
  destruct (is_fill c && (3 <=? run_length c s)); intros H; inversion H; auto.
Qed.

Lemma last_skipn (s : str) k x : last (skipn k s) = Some x -> last s = Some x.
Proof.
  rewrite <- (firstn_skipn k s) at 2. rewrite last_app. now intros ->.
Qed.

Lemma normalize_last s x :
  last (normalize_fill_zones s) = Some x -> x = chr "_" \/ last s = Some x.
Proof.
  remember (length s) as n eqn:Hn. revert s Hn.
  induction n as [n IH] using lt_wf_ind. intros s Hn. subst n.
  destruct s as [|c s]; [discriminate|]. rewrite FillFacts.normalize_cons.
  destruct (is_fill c && (3 <=? run_length c s)).
  - rewrite last_app.
    destruct (last (normalize_fill_zones (skipn (run_length c s) s))) as [y|] eqn:E.
    + intros H. inversion H. subst y.
      apply (IH (length (skipn (run_length c s) s))) in E; [|rewrite length_skipn; simpl; lia|reflexivity].
      destruct E as [E|E]; [now left|right].
      apply last_skipn in E. rewrite last_cons, E. reflexivity.
    + intros H. left. now inversion H.
  - rewrite last_cons.
    destruct (last (normalize_fill_zones s)) as [y|] eqn:E.
    + intros H. inversion H. subst y.
      apply (IH (length s)) in E; [|simpl; lia|reflexivity].
      destruct E as [E|E]; [now left|right]. rewrite last_cons, E. reflexivity.
    + intros H. inversion H. subst x. right.
      apply last_None, normalize_nil_inv in E. now subst.
Qed.

Lemma clean_text_ends raw c :
  head (clean_text raw) = Some c \/ last (clean_text raw) = Some c ->
  isspace c = false.
Proof.
  unfold clean_text.
  intros [H|H].
  - apply normalize_head in H as [->|H]; [reflexivity|].
    unfold strip in H. now apply strip_by_ends in H.
  - apply normalize_last in H as [->|H]; [reflexivity|].
    unfold strip in H. now apply strip_by_ends in H.
Qed.

End CleanFacts.

(** ** Fences and brackets *)

Module FenceFacts.
Import Json Repair.

Lemma split_nonempty sep s : split sep s <> [].
Proof.
  destruct s as [|c s]; [discriminate|]. simpl.
  destruct (N.eqb c sep); [discriminate|]. destruct (split sep s); discriminate.
Qed.

(** Cutting at the first separator. *)
Lemma split_first sep a b :
  sep ∉ a -> split sep (a ++ sep :: b) = a :: split sep b.
Proof.
  induction a as [|c a IH]; intros Hno.
  - simpl. now rewrite N.eqb_refl.
  - cbn [app split]. destruct (N.eqb_spec c sep) as [->|Hne].
    + exfalso. apply Hno. left.
    + rewrite IH; [reflexivity|]. intros Hin. apply Hno. now right.
Qed.

Lemma split_plain sep c : sep ∉ c -> split sep c = [c].
Proof.
  induction c as [|d c IH]; intros Hno; [reflexivity|].
  cbn [split]. destruct (N.eqb_spec d sep) as [->|Hne].
  - exfalso. apply Hno. left.
  - rewrite IH; [reflexivity|]. intros Hin. apply Hno. now right.
Qed.

(** Cutting at the last separator. *)
Lemma split_last sep b c :
  sep ∉ c -> split sep (b ++ sep :: c) = split sep b ++ [c].
Proof.
  intros Hno. induction b as [|d b IH].
  - simpl. rewrite N.eqb_refl. now rewrite split_plain.
  - cbn [app split]. destruct (N.eqb d sep).
    + now rewrite IH.
    + rewrite IH. destruct (split sep b) eqn:E; [|reflexivity].
      now apply split_nonempty in E.
Qed.

Lemma join_cons sep p ps :
  ps <> [] -> join sep (p :: ps) = p ++ sep ++ join sep ps.
Proof. destruct ps; [congruence|reflexivity]. Qed.

(** Joining what was split gives the text back. *)
Lemma join_split sep s : join [sep] (split sep s) = s.
Proof.
  induction s as [|c s IH]; [reflexivity|].
  cbn [split]. destruct (N.eqb_spec c sep) as [->|Hne].
  - rewrite join_cons by apply split_nonempty. now rewrite IH.
  - destruct (split sep s) as [|h t] eqn:E; [now apply split_nonempty in E|].
    destruct t as [|h' t].
    + simpl in *. now rewrite IH.
    + rewrite join_cons by discriminate.
      rewrite join_cons in IH by discriminate.
      rewrite <- IH. reflexivity.
Qed.

(** White space around a text that neither starts nor ends with white
    space is what [strip] removes. *)
Lemma lstrip_by_pad space ws s :
  Forall (fun c => space c = true) ws ->
  match s with c :: _ => space c = false | [] => True end ->
  lstrip_by space (ws ++ s) = s.
Proof.
  induction 1 as [|w ws Hw _ IH]; intros Hs.
  - destruct s as [|c s]; [reflexivity|]. simpl. now rewrite Hs.
  - cbn [app lstrip_by]. rewrite Hw. now apply IH.
Qed.

Lemma strip_by_pad space ws1 ws2 c mid d :
  Forall (fun c => space c = true) ws1 ->
  Forall (fun c => space c = true) ws2 ->
  space c = false -> space d = false ->
  strip_by space (ws1 ++ (c :: mid ++ [d]) ++ ws2) = c :: mid ++ [d].
Proof.
  intros H1 H2 Hc Hd. unfold strip_by, rstrip_by.
  rewrite lstrip_by_pad; [|exact H1|exact Hc].
  rewrite rev_app_distr.
  rewrite lstrip_by_pad.
  - apply rev_involutive.
  - now apply Forall_rev.
  - change (c :: mid ++ [d]) with ([c] ++ mid ++ [d]).
    rewrite !rev_app_distr. simpl. exact Hd.
Qed.

Lemma strip_fence_marker : strip (lit "```") = lit "```".
Proof. reflexivity. Qed.

(** A payload wrapped in a fence comes back as it was. *)
Lemma strip_fences_fenced ws1 ws2 lang body :
  Forall (fun c => isspace c = true) ws1 ->
  Forall (fun c => isspace c = true) ws2 ->
  LF ∉ lang ->
  strip_fences (ws1 ++ (lit "```" ++ lang ++ [LF] ++ body ++ [LF] ++ lit "```") ++ ws2)
  = body.
Proof.
  intros H1 H2 Hlang. unfold strip_fences.
  set (fenced := lit "```" ++ lang ++ [LF] ++ body ++ [LF] ++ lit "```").
  assert (Estrip : strip (ws1 ++ fenced ++ ws2) = fenced).
  { unfold fenced, strip.
    change (lit "```" ++ lang ++ [LF] ++ body ++ [LF] ++ lit "```")
      with (chr "`" :: (lit "``" ++ lang ++ [LF] ++ body ++ [LF] ++ lit "```")).
    replace (lit "``" ++ lang ++ [LF] ++ body ++ [LF] ++ lit "```")
      with ((lit "``" ++ lang ++ [LF] ++ body ++ [LF] ++ lit "``") ++ [chr "`"])
      by (now rewrite <- !app_assoc).
    now apply strip_by_pad. }
  rewrite Estrip. unfold fenced at 1.
  change (startswith (lit "```") (lit "```" ++ ?l)) with true. cbv iota.
  unfold fenced.
  replace (lit "```" ++ lang ++ [LF] ++ body ++ [LF] ++ lit "```")
    with ((lit "```" ++ lang) ++ LF :: (body ++ LF :: lit "```"))
    by (now rewrite <- !app_assoc).
  rewrite split_first.
  2:{ intros Hin. apply elem_of_app in Hin as [Hin|Hin]; [|now apply Hlang].
      revert Hin. unfold lit. simpl. rewrite !elem_of_cons, elem_of_nil.
      intros [E|[E|[E|[]]]]; discriminate. }
  cbn [tail]. rewrite split_last.
  2:{ unfold lit. simpl. rewrite !elem_of_cons, elem_of_nil.
      intros [E|[E|[E|[]]]]; discriminate. }
  rewrite last_snoc. rewrite strip_fence_marker.
  destruct (decide (lit "```" = lit "```")) as [_|Hne]; [|congruence].
  rewrite removelast_last. apply join_split.
Qed.

(** *** The bracket search *)

Lemma upto_last_None c s : c ∉ s -> upto_last c s = None.
Proof.
  induction s as [|d s IH]; intros Hno; [reflexivity|].
  simpl. rewrite IH by (intros Hin; apply Hno; now right).
  destruct (N.eqb_spec d c) as [->|]; [|reflexivity].
  exfalso. apply Hno. left.
Qed.

Lemma upto_last_found c mid post :
  c ∉ post -> upto_last c (mid ++ c :: post) = Some (mid ++ [c]).
Proof.
  intros Hno. induction mid as [|d mid IH].
  - simpl. rewrite (upto_last_None _ _ Hno). now rewrite N.eqb_refl.
  - cbn [app upto_last]. now rewrite IH.
Qed.

(** Between prose without brackets the search finds the array. *)
Lemma search_brackets_found pre mid post :
  chr "[" ∉ pre -> chr "]" ∉ post ->
  search_brackets (pre ++ chr "[" :: mid ++ chr "]" :: post)
  = Some (chr "[" :: mid ++ [chr "]"]).
Proof.
  intros Hpre Hpost. induction pre as [|c pre IH].
  - cbn [app search_brackets]. change (eqc "[" (chr "[")) with true. cbv iota.
    now rewrite upto_last_found.
  - cbn [app search_brackets]. destruct (eqc "[" c) eqn:Ec.
    + apply FillFacts.eqc_true in Ec. subst. exfalso. apply Hpre. left.
    + apply IH. intros Hin. apply Hpre. now right.
Qed.

End FenceFacts.

(** ** More on the json branch of [main] *)

Module RegionFacts.
Import Json Fill Repair Main ResFacts.

(** *** Dicts: what [d[k] = v] changes *)

Lemma dict_get_set k v d : dict_get k (dict_set k v d) = Some v.
Proof.
  induction d as [|[k' v'] d IH]; simpl.
  - now rewrite decide_True.
  - destruct (decide (k' = k)) as [->|Hne]; simpl.
    + now rewrite decide_True.
    + now rewrite decide_False.
Qed.

Lemma dict_get_set_other k k' v d :
  k' <> k -> dict_get k' (dict_set k v d) = dict_get k' d.
Proof.
  intros Hne. induction d as [|[k0 v0] d IH]; simpl.
  - rewrite decide_False; [reflexivity|congruence].
  - destruct (decide (k0 = k)) as [->|Hne0]; simpl.
    + now rewrite !decide_False by congruence.
    + destruct (decide (k0 = k')); [reflexivity|exact IH].
Qed.

(** An update of a key that is there keeps the keys and their order. *)
Lemma dict_set_keys k v d :
  dict_in k d = true -> map fst (dict_set k v d) = map fst d.
Proof.
  unfold dict_in. induction d as [|[k0 v0] d IH]; simpl; [discriminate|].
  destruct (decide (k0 = k)); simpl; [reflexivity|].
  intros H. now rewrite IH.
Qed.

(** A new key goes to the end. *)
Lemma dict_set_fresh k v d :
  dict_get k d = None -> dict_set k v d = d ++ [(k, v)].
Proof.
  induction d as [|[k0 v0] d IH]; simpl; [reflexivity|].
  destruct (decide (k0 = k)); [discriminate|]. intros H. now rewrite IH.
Qed.

Lemma dict_get_app_fresh k d k' v :
  dict_get k (d ++ [(k', v)]) =
  match dict_get k d with Some x => Some x | None => if decide (k' = k) then Some v else None end.
Proof.
  induction d as [|[k0 v0] d IH]; simpl; [reflexivity|].
  destruct (decide (k0 = k)); [reflexivity|exact IH].
Qed.

(** *** One region *)

Lemma normalize_region_spec r :
  normalize_region r =
  match r with
  | JDict d =>
      Ok (JDict match dict_get (lit "text") d with
                | Some (JStr t) => dict_set (lit "text") (JStr (normalize_fill_zones t)) d
                | _ => d
                end)
  | _ => Raise AttributeError
  end.
Proof.
  destruct r; try reflexivity. simpl.
  destruct (dict_get (lit "text") d) as [[]|]; reflexivity.
Qed.

Lemma mapM_Ok {A B} (f : A -> res B) l l' :
  mapM f l = Ok l' -> Forall2 (fun x y => f x = Ok y) l l'.
Proof.
  revert l'. induction l as [|x l IH]; intros l' H.
  - inversion H. constructor.
  - cbn [mapM] in H. apply bind_Ok in H as (y & Hy & H).
    apply bind_Ok in H as (ys & Hys & H). inversion H; subst.
    constructor; [exact Hy|now apply IH].
Qed.

Lemma mapM_regions l :
  (forallb is_object l = true /\ exists l', mapM normalize_region l = Ok l' /\ length l' = length l)
  \/ (forallb is_object l = false /\ mapM normalize_region l = Raise AttributeError).
Proof.
  induction l as [|r l IH].
  - left. split; [reflexivity|]. now exists [].
  - cbn [mapM forallb]. rewrite normalize_region_spec.
    destruct r as [| | | | | |d]; try (right; split; reflexivity).
    cbn [is_object andb].
    change (Ok ?a ≫= ?k) with (k a). cbv beta.
    destruct IH as [(Hall & l' & -> & Hlen)|(Hall & ->)].
    + left. split; [exact Hall|]. eexists. split; [reflexivity|].
      simpl. now rewrite Hlen.
    + right. split; [exact Hall|reflexivity].
Qed.

End RegionFacts.

(** ** Tags after the whole text branch *)

Module TagFacts.
Import Fill Clean CleanFacts.
#[local] Arguments Nat.leb : simpl never.

Lemma fill_sub_re_sub repl s : forall k,
  fill_sub repl k s = re_sub fill_match repl k s.
Proof.
  induction s as [|c s IH]; intros k; [reflexivity|].
  cbn [fill_sub re_sub]. destruct k as [|k]; [|apply IH].
  destruct (fill_match (c :: s)) as [[|j]|]; now rewrite IH.
Qed.

Lemma upto_gt_inv s n :
  upto_gt s = Some n ->
  exists body post, s = body ++ chr ">" :: post /\ (chr ">" ∉ body) /\ n = S (length body).
Proof.
  revert n. induction s as [|c s IH]; intros n H; [discriminate|].
  simpl in H. destruct (eqc ">" c) eqn:Ec.
  - apply FillFacts.eqc_true in Ec. subst c. inversion H.
    exists [], s. repeat split. apply not_elem_of_nil.
  - destruct (upto_gt s) as [j|]; [|discriminate]. inversion H; subst.
    destruct (IH j eq_refl) as (body & post & -> & Hno & ->).
    exists (c :: body), post. repeat split.
    intros Hin. apply elem_of_cons in Hin as [E|Hin]; [|now apply Hno].
    subst c. discriminate.
Qed.

Lemma tagged_cons c s : tagged s = true -> tagged (c :: s) = true.
Proof. intros H. cbn [tagged]. rewrite H. now destruct (tag_match (c :: s)). Qed.

Lemma tagged_has_tag s : tagged s = true -> has_tag s.
Proof.
  induction s as [|c s IH]; [discriminate|].
  cbn [tagged]. destruct (tag_match (c :: s)) as [n|] eqn:E.
  - intros _. simpl in E. destruct (eqc "<" c) eqn:Ec; [|discriminate].
    apply FillFacts.eqc_true in Ec. subst c.
    destruct (upto_gt s) as [[|[|k]]|] eqn:Eu; try discriminate.
    apply upto_gt_inv in Eu as (body & post & -> & Hno & Hlen).
    exists [], body, post. repeat split; [|exact Hno].
    intros ->. discriminate.
  - intros H. destruct (IH H) as (pre & body & post & Hne & Hno & ->).
    exists (c :: pre), body, post. now repeat split.
Qed.

Lemma has_tag_inside l s r : has_tag s -> has_tag (l ++ s ++ r).
Proof.
  intros (pre & body & post & Hne & Hno & ->).
  exists (l ++ pre), body, (post ++ r). split; [exact Hne|]. split; [exact Hno|].
  rewrite <- !app_assoc. cbn [app]. now rewrite <- !app_assoc.
Qed.

Lemma upto_gt_app r t :
  chr ">" ∉ r -> upto_gt (r ++ t) = (fun n => length r + n) <$> upto_gt t.
Proof.
  induction r as [|c r IH]; intros Hno.
  - simpl. now destruct (upto_gt t).
  - cbn [app upto_gt]. destruct (eqc ">" c) eqn:Ec.
    + apply FillFacts.eqc_true in Ec. subst c. exfalso. apply Hno. left.
    + rewrite IH by (intros Hin; apply Hno; now right).
      now destruct (upto_gt t).
Qed.

Lemma tagged_app r t : chr "<" ∉ r -> tagged (r ++ t) = tagged t.
Proof.
  induction r as [|c r IH]; intros Hno; [reflexivity|].
  cbn [app tagged tag_match]. destruct (eqc "<" c) eqn:Ec.
  - apply FillFacts.eqc_true in Ec. subst c. exfalso. apply Hno. left.
  - apply IH. intros Hin. apply Hno. now right.
Qed.

(** A substitution that touches neither [<] nor [>] makes no tag. *)
Section Inert.

Variable matcher : str -> option nat.
Variable repl : str.
Variable cls : char -> bool.
Hypothesis cls_lt : cls (chr "<") = false.
Hypothesis cls_gt : cls (chr ">") = false.
Hypothesis match_cls :
  forall s n, matcher s = Some n -> Forall (fun c => cls c = true) (take n s).
Hypothesis repl_lt : chr "<" ∉ repl.
Hypothesis repl_gt : chr ">" ∉ repl.

Lemma cls_not_gt c : cls c = true -> eqc ">" c = false.
Proof.
  intros Hc. destruct (eqc ">" c) eqn:E; [|reflexivity].
  apply FillFacts.eqc_true in E. subst c. congruence.
Qed.

Lemma inert_upto_gt s : forall k n,
  Forall (fun c => cls c = true) (take k s) ->
  upto_gt (re_sub matcher repl k s) = Some n ->
  exists n', upto_gt s = Some n' /\ (2 <= n -> 2 <= n').
Proof.
  induction s as [|c s IH]; intros k n Hk H; [discriminate|].
  assert (Hskip : forall j m,
             cls c = true -> Forall (fun c => cls c = true) (take j s) ->
             upto_gt (re_sub matcher repl j s) = Some m ->
             exists n', upto_gt (c :: s) = Some n' /\ 2 <= n').
  { intros j m Hc Hj E. destruct (IH j m Hj E) as (n' & En' & _).
    exists (S n'). cbn [upto_gt]. rewrite (cls_not_gt _ Hc), En'.
    split; [reflexivity|]. apply upto_gt_pos in En'. lia. }
  cbn [re_sub] in H. destruct k as [|k].
  - destruct (matcher (c :: s)) as [[|j]|] eqn:Em.
    2:{ apply match_cls in Em. cbn [take] in Em. inversion Em; subst.
        rewrite upto_gt_app in H by exact repl_gt.
        destruct (upto_gt (re_sub matcher repl j s)) as [m|] eqn:E; [|discriminate].
        destruct (Hskip j m) as (n' & En' & Hn'); auto.
        exists n'. split; [exact En'|intros _; exact Hn']. }
    all: cbn [upto_gt] in *; destruct (eqc ">" c);
      [inversion H; exists 1; split; [reflexivity|lia]|];
      destruct (upto_gt (re_sub matcher repl 0 s)) as [m|] eqn:E; [|discriminate];
      destruct (IH 0 m (Forall_nil_2 _) E) as (n' & En' & _);
      rewrite En'; exists (S n'); (split; [reflexivity|]);
      apply upto_gt_pos in En'; lia.
  - cbn [take] in Hk. inversion Hk; subst.
    destruct (Hskip k n) as (n' & En' & Hn'); auto.
    exists n'. split; [exact En'|intros _; exact Hn'].
Qed.

Lemma inert_tagged s : forall k,
  Forall (fun c => cls c = true) (take k s) ->
  tagged (re_sub matcher repl k s) = true -> tagged s = true.
Proof.
  induction s as [|c s IH]; intros k Hk H; [discriminate|].
  cbn [re_sub] in H. destruct k as [|k].
  - assert (Hcopy : tagged (c :: re_sub matcher repl 0 s) = true ->
                    tagged (c :: s) = true).
    { cbn [tagged].
      destruct (tag_match (c :: re_sub matcher repl 0 s)) as [n|] eqn:Et.
      - intros _. cbn [tag_match] in *. destruct (eqc "<" c); [|discriminate].
        destruct (upto_gt (re_sub matcher repl 0 s)) as [[|[|m]]|] eqn:E;
          try discriminate.
        destruct (inert_upto_gt s 0 _ (Forall_nil_2 _) E) as (n' & -> & Hn').
        destruct n' as [|[|n']]; [lia|lia|reflexivity].
      - intros Ht. rewrite (IH 0 (Forall_nil_2 _) Ht).
        now destruct (tag_match (c :: s)). }
    destruct (matcher (c :: s)) as [[|j]|] eqn:Em; auto.
    apply match_cls in Em. cbn [take] in Em. inversion Em; subst.
    rewrite tagged_app in H by exact repl_lt.
    apply tagged_cons. now apply (IH j).
  - cbn [take] in Hk. inversion Hk; subst.
    apply tagged_cons. now apply (IH k).
Qed.

End Inert.

(** Runs are made of the character they count. *)
Lemma run_length_take c s : Forall (fun d => d = c) (take (run_length c s) s).
Proof.
  induction s as [|d s IH]; [constructor|].
  simpl. destruct (N.eqb_spec d c) as [->|]; [|constructor].
  cbn [take]. now constructor.
Qed.

Lemma collapse_tagged s : tagged (collapse_spaces s) = true -> tagged s = true.
Proof.
  unfold collapse_spaces.
  apply (inert_tagged spaces_match (lit " ") (eqc " ")); try reflexivity.
  - intros t n H. unfold spaces_match in H.
    destruct (2 <=? run_length (chr " ") t); [|discriminate].
    inversion H; subst. eapply Forall_impl; [apply run_length_take|].
    intros d ->. reflexivity.
  - intros Hin. apply list_elem_of_singleton in Hin. discriminate.
  - intros Hin. apply list_elem_of_singleton in Hin. discriminate.
  - constructor.
Qed.

Lemma normalize_tagged s : tagged (normalize_fill_zones s) = true -> tagged s = true.
Proof.
  unfold normalize_fill_zones. rewrite fill_sub_re_sub.
  apply (inert_tagged fill_match (lit "___") is_fill); try reflexivity.
  - intros t n H. destruct t as [|c t]; [discriminate|]. cbn [fill_match] in H.
    destruct (is_fill c) eqn:Ec; [|discriminate].
    destruct (3 <=? run_length c t); [|discriminate].
    inversion H; subst. cbn [take]. constructor; [exact Ec|].
    eapply Forall_impl; [apply run_length_take|]. now intros d ->.
  - unfold lit. simpl. rewrite !elem_of_cons, elem_of_nil.
    intros [E|[E|[E|[]]]]; discriminate.
  - unfold lit. simpl. rewrite !elem_of_cons, elem_of_nil.
    intros [E|[E|[E|[]]]]; discriminate.
  - constructor.
Qed.

(** No step after the tags are stripped brings one back. *)
Lemma clean_text_no_tag raw : ~ has_tag (clean_text raw).
Proof.
  unfold clean_text. intros H.
  apply has_tag_tagged, normalize_tagged, tagged_has_tag in H.
  destruct (strip_by_inside isspace (collapse_spaces (strip_tags raw))) as (l & r & Hin).
  apply (has_tag_inside l _ r) in H. unfold strip in H. rewrite <- Hin in H.
  apply has_tag_tagged, collapse_tagged in H.
  unfold strip_tags in H. now rewrite strip_tags_untagged in H.
Qed.

End TagFacts.

(** ** The question script *)

Module AskFacts.
Import Stream Json Repair Ask ResFacts.

(** *** Numbers as keys *)

Lemma lit_inj s1 s2 : lit s1 = lit s2 -> s1 = s2.
Proof.
  unfold lit. revert s2. induction s1 as [|a s1 IH]; intros [|b s2] H;
    try discriminate; [reflexivity|].
  simpl in H. inversion H as [[Ha Hs]].
  unfold chr in Ha. apply (f_equal ascii_of_N) in Ha.
  rewrite !ascii_N_embedding in Ha. subst. f_equal. now apply IH.
Qed.

Lemma str_int_inj i j : str_int i = str_int j -> i = j.
Proof. unfold str_int. intros H. apply lit_inj in H. now apply pretty_Z_inj in H. Qed.

Lemma pretty_N_char_numeric x : numeric (pretty_N_char x).
Proof.
  unfold numeric, pretty_N_char.
  repeat case_match; left; vm_compute; split; discriminate.
Qed.

Lemma pretty_N_go_numeric x : forall s,
  Forall numeric (list_ascii_of_string s) ->
  Forall numeric (list_ascii_of_string (pretty_N_go x s)).
Proof.
  induction (N.lt_wf_0 x) as [x _ IH]; intros s Hs.
  assert (x = 0 \/ 0 < x)%N as [->|Hx] by lia.
  - now rewrite pretty_N_go_0.
  - rewrite pretty_N_go_step by exact Hx. apply IH.
    + now apply N.div_lt.
    + simpl. constructor; [apply pretty_N_char_numeric|exact Hs].
Qed.

Lemma zero_numeric : Forall numeric (list_ascii_of_string "0").
Proof. constructor; [left; vm_compute; split; discriminate|constructor]. Qed.

Lemma pretty_Z_numeric (i : Z) : Forall numeric (list_ascii_of_string (pretty i)).
Proof.
  assert (HN : forall n : N, Forall numeric (list_ascii_of_string (pretty n))).
  { intros n. unfold pretty, pretty_N. case_decide.
    - apply zero_numeric.
    - apply pretty_N_go_numeric. constructor. }
  destruct i as [|p|p]; unfold pretty, pretty_Z.
  - apply zero_numeric.
  - apply (HN (Npos p)).
  - simpl. constructor; [now right|apply (HN (Npos p))].
Qed.

Lemma str_int_chars i c : c ∈ str_int i -> (48 <= c <= 57)%N \/ c = chr "-".
Proof.
  unfold str_int, lit. intros Hin.
  apply list_elem_of_fmap in Hin as (a & -> & Ha).
  pose proof (pretty_Z_numeric i) as Hall.
  rewrite List.Forall_forall in Hall.
  apply list_elem_of_In in Ha. destruct (Hall a Ha) as [H| ->]; [now left|now right].
Qed.

Lemma str_int_not_error i : str_int i <> lit "error".
Proof.
  intros E. assert (Hin : chr "e" ∈ str_int i) by (rewrite E; left).
  apply str_int_chars in Hin as [[H1 H2]|H]; [|discriminate].
  vm_compute in H2. now apply H2.
Qed.

Lemma str_int_no_LF i : LF ∉ str_int i.
Proof.
  intros Hin. apply str_int_chars in Hin as [[H1 H2]|H]; [|discriminate].
  vm_compute in H1. now apply H1.
Qed.

(** *** The answers, question by question *)

Lemma output_entries_object d questions : forall start acc,
  (forall i, (start <= i)%Z -> dict_get (str_int i) acc = None) ->
  output_entries (JDict d) (enumerate questions start) acc
  = Ok (acc ++ map (output_entry (fun key => default JNull (dict_get key d)))
                   (enumerate questions start)).
Proof.
  induction questions as [|q questions IH]; intros start acc Hfresh.
  - simpl. now rewrite app_nil_r.
  - cbn [enumerate output_entries results_get].
    change (Ok ?a ≫= ?k) with (k a). cbv beta.
    rewrite RegionFacts.dict_set_fresh by (apply Hfresh; lia).
    rewrite IH.
    + cbn [map]. now rewrite <- app_assoc.
    + intros i Hi. rewrite RegionFacts.dict_get_app_fresh, Hfresh by lia.
      destruct (decide (str_int start = str_int i)) as [E|]; [|reflexivity].
      apply str_int_inj in E. lia.
Qed.

Lemma output_data_object d questions :
  output_data (JDict d) questions
  = Ok (JDict (map (output_entry (fun key => default JNull (dict_get key d)))
                   (enumerate questions 1))).
Proof.
  unfold output_data. now rewrite output_entries_object.
Qed.

Lemma output_data_not_object results q questions :
  is_object results = false ->
  output_data results (q :: questions) = Raise AttributeError.
Proof. destruct results; try discriminate; reflexivity. Qed.

Lemma map_output_entry_ext f g numbered :
  (forall i, f (str_int i) = g (str_int i)) ->
  map (output_entry f) numbered = map (output_entry g) numbered.
Proof.
  intros H. apply map_ext. intros [i q]. unfold output_entry. cbn [fst snd].
  now rewrite H.
Qed.

(** *** The streamed reply *)

Lemma gather_fold stream : forall st,
  fst (fold_left consume stream st)
  = fold_left
      (fun parts chunk =>
         match choices chunk with
         | choice :: _ =>
             match truthy (content (delta choice)) with
             | Some d => parts ++ [d]
             | None => parts
             end
         | [] => parts
         end) stream (fst st).
Proof.
  induction stream as [|chunk stream IH]; intros st; [reflexivity|].
  cbn [fold_left]. rewrite IH. f_equal.
  unfold consume. now destruct (choices chunk).
Qed.

Lemma gather_text stream max_tokens :
  concat (gather stream) = snd (ocr_image_base64 stream max_tokens).
Proof.
  unfold gather, ocr_image_base64.
  pose proof (gather_fold stream ([], None)) as H. cbn [fst] in H.
  rewrite <- H. now destruct (fold_left consume stream ([], None)).
Qed.

Lemma ask_batch_decoded stream v :
  json_loads (strip_fences (concat (gather stream))) = Ok v ->
  ask_batch stream = Ok v.
Proof. unfold ask_batch. now intros ->. Qed.

Lemma ask_batch_undecodable stream :
  json_loads (strip_fences (concat (gather stream))) = Raise JSONDecodeError ->
  ask_batch stream
  = Ok (JDict [(lit "error", JStr (strip_fences (concat (gather stream))))]).
Proof. unfold ask_batch. intros ->. apply RepairFacts.try_except_caught. Qed.

End AskFacts.

(** ** Streams in pieces *)

Module StreamMore.
Import Stream StreamFacts.

Lemma ocr_image_base64_fold stream max_tokens :
  ocr_image_base64 stream max_tokens =
  (if decide (last (omap (fun chunk => truthy (terminal_reason chunk)) stream)
              = Some (lit "length"))
   then [TruncationWarning max_tokens] else [],
   concat (omap (fun chunk => truthy (text_delta chunk)) stream)).
Proof.
  unfold ocr_image_base64. rewrite fold_consume. cbn [fst snd app].
  now destruct (last _).
Qed.

Lemma ocr_image_base64_app s1 s2 max_tokens :
  snd (ocr_image_base64 (s1 ++ s2) max_tokens)
  = snd (ocr_image_base64 s1 max_tokens) ++ snd (ocr_image_base64 s2 max_tokens)
  /\ fst (ocr_image_base64 (s1 ++ s2) max_tokens)
     = match last (omap (fun chunk => truthy (terminal_reason chunk)) s2) with
       | Some _ => fst (ocr_image_base64 s2 max_tokens)
       | None => fst (ocr_image_base64 s1 max_tokens)
       end.
Proof.
  rewrite !ocr_image_base64_fold. cbn [fst snd].
  rewrite !omap_app, concat_app, last_app. split; [reflexivity|].
  now destruct (last (omap _ s2)).
Qed.

End StreamMore.

(** ** Chunks through the normaliser *)

Module RegionMore.
Import Json Fill Repair Main Regions ResFacts RegionFacts.

Lemma normalize_region_kept r r' : normalize_region r = Ok r' -> region_kept r r'.
Proof.
  rewrite normalize_region_spec. destruct r as [| | | | | |d]; try discriminate.
  intros H. inversion H; subst. clear H. exists d. eexists.
  split; [reflexivity|]. split; [reflexivity|].
  destruct (dict_get (lit "text") d) as [v|] eqn:Et.
  - assert (Hkeep : map fst d = map fst d
                    /\ dict_get (lit "text") d = Some v
                    /\ forall k, k <> lit "text" -> dict_get k d = dict_get k d)
      by (repeat split; assumption).
    destruct v; try (rewrite Et; destruct Hkeep as (? & ? & ?); repeat split; auto).
    repeat split.
    + apply dict_set_keys. unfold dict_in. now rewrite Et.
    + apply dict_get_set.
    + intros k Hk. now apply dict_get_set_other.
  - rewrite Et. repeat split.
Qed.

Lemma normalize_regions_kept l l' :
  normalize_regions (JList l) = Ok (JList l') -> Forall2 region_kept l l'.
Proof.
  unfold normalize_regions. intros H.
  apply fmap_Ok in H as (chunks & Hm & E). inversion E; subst.
  apply mapM_Ok in Hm. eapply Forall2_impl; [exact Hm|].
  intros r r' Hr. now apply normalize_region_kept.
Qed.

Lemma page_regions_outcome raw chunks :
  parse_bbox_response raw = Ok (JList chunks) ->
  (forallb is_object chunks = true ->
   exists chunks', page_regions raw = Ok (JList chunks')
                   /\ Forall2 region_kept chunks chunks')
  /\ (forallb is_object chunks = false -> page_regions raw = Raise AttributeError).
Proof.
  intros Hp. unfold page_regions. rewrite Hp.
  change (Ok (JList chunks) ≫= ?k) with (k (JList chunks)). cbv beta.
  destruct (mapM_regions chunks) as [(Hall & l' & Hm & _)|(Hall & Hm)]; rewrite Hall.
  - split; [|discriminate]. intros _.
    assert (E : normalize_regions (JList chunks) = Ok (JList l')).
    { unfold normalize_regions. now rewrite Hm. }
    exists l'. split; [exact E|]. now apply normalize_regions_kept.
  - split; [discriminate|]. intros _. unfold normalize_regions. now rewrite Hm.
Qed.

End RegionMore.

(** ** Text that needs no cleaning *)

Module CleanMore.
Import Fill Clean CleanFacts.
#[local] Arguments Nat.leb : simpl never.

Lemma collapse_fixed s : spaced s = false -> collapse_spaces s = s.
Proof.
  unfold collapse_spaces. induction s as [|c s IH]; [reflexivity|].
  cbn [spaced]. intros H. apply orb_false_iff in H as [Hc Hs].
  cbn [re_sub]. rewrite spaces_match_cons, Hc. now rewrite IH.
Qed.

Lemma lstrip_by_fixed space s :
  (forall c, head s = Some c -> space c = false) -> lstrip_by space s = s.
Proof.
  destruct s as [|c s]; [reflexivity|]. intros H. simpl.
  now rewrite (H c eq_refl).
Qed.

Lemma head_rev {A} (l : list A) : head (rev l) = last l.
Proof.
  induction l as [|x l IH]; [reflexivity|].
  simpl. rewrite last_cons. destruct l as [|y l]; [reflexivity|].
  rewrite <- IH. simpl. destruct (rev l ++ [y]) eqn:E; [|reflexivity].
  now apply app_eq_nil in E as [_ ?].
Qed.

Lemma strip_by_fixed space s :
  (forall c, head s = Some c \/ last s = Some c -> space c = false) ->
  strip_by space s = s.
Proof.
  intros H. unfold strip_by, rstrip_by.
  rewrite (lstrip_by_fixed space s) by (intros c Hc; apply H; now left).
  rewrite lstrip_by_fixed; [apply rev_involutive|].
  intros c Hc. rewrite head_rev in Hc. apply H. now right.
Qed.

(** A page of plain, tidy text goes through the text branch unchanged. *)
Lemma clean_text_fixed raw :
  chr "<" ∉ raw ->
  ~ double_space raw ->
  (forall c, head raw = Some c \/ last raw = Some c -> isspace c = false) ->
  ~ has_fill_run raw ->
  clean_text raw = raw.
Proof.
  intros Hlt Hsp Hends Hfill. unfold clean_text.
  rewrite (strip_tags_plain _ Hlt).
  rewrite collapse_fixed.
  2:{ destruct (spaced raw) eqn:E; [|reflexivity].
      exfalso. apply Hsp. now apply spaced_double. }
  unfold strip. rewrite (strip_by_fixed _ _ Hends).
  now apply FillFacts.no_fill_run_fixed.
Qed.

End CleanMore.

(** ** Selections compared *)

Module PagesMore.
Import Pages ResFacts PagesFacts.
#[local] Open Scope Z_scope.

Lemma strict_NoDup (l : list Z) : StronglySorted Z.lt l -> NoDup l.
Proof.
  induction 1 as [|x l _ IH Hx]; constructor; [|exact IH].
  intros Hin. rewrite List.Forall_forall in Hx.
  apply list_elem_of_In in Hin. specialize (Hx x Hin). lia.
Qed.

(** A strictly increasing list is determined by its elements. *)
Lemma strict_sorted_ext (l1 l2 : list Z) :
  StronglySorted Z.lt l1 -> StronglySorted Z.lt l2 ->
  (forall p, p ∈ l1 <-> p ∈ l2) -> l1 = l2.
Proof.
  intros H1. revert l2. induction H1 as [|x l1 Hs1 IH Hx]; intros l2 H2 Hsame.
  - destruct l2 as [|y l2]; [reflexivity|].
    exfalso. apply (not_elem_of_nil y), Hsame. left.
  - destruct H2 as [|y l2 Hs2 Hy].
    { exfalso. apply (not_elem_of_nil x), Hsame. left. }
    rewrite List.Forall_forall in Hx, Hy.
    assert (x = y) as <-.
    { assert (Hxin : x ∈ y :: l2) by (apply Hsame; left).
      assert (Hyin : y ∈ x :: l1) by (apply Hsame; left).
      apply elem_of_cons in Hxin as [?|Hxin]; [assumption|].
      apply elem_of_cons in Hyin as [?|Hyin]; [congruence|].
      apply list_elem_of_In in Hxin, Hyin.
      specialize (Hx _ Hyin). specialize (Hy _ Hxin). lia. }
    f_equal. apply IH; [exact Hs2|]. intros p. split; intros Hp.
    + assert (Hin : p ∈ x :: l2) by (apply Hsame; now right).
      apply elem_of_cons in Hin as [->|Hin]; [|exact Hin].
      apply list_elem_of_In in Hp. specialize (Hx _ Hp). lia.
    + assert (Hin : p ∈ x :: l1) by (apply Hsame; now right).
      apply elem_of_cons in Hin as [->|Hin]; [|exact Hin].
      apply list_elem_of_In in Hp. specialize (Hy _ Hp). lia.
Qed.

Lemma strict_filter (P : Z -> Prop) `{!forall p, Decision (P p)} (l : list Z) :
  StronglySorted Z.lt l -> StronglySorted Z.lt (filter P l).
Proof.
  induction 1 as [|x l _ IH Hx]; [constructor|].
  rewrite filter_cons. destruct (decide (P x)); [|exact IH].
  constructor; [exact IH|].
  rewrite List.Forall_forall in *. intros y Hy.
  apply Hx. apply list_elem_of_In in Hy. apply list_elem_of_In.
  now apply list_elem_of_filter in Hy as [_ ?].
Qed.

(** Two selectors with the same tokens select the same pages, or fail
    together. *)
Lemma parse_page_range_same_tokens spec1 spec2 total :
  (forall t, t ∈ split (chr ",") spec1 <-> t ∈ split (chr ",") spec2) ->
  parse_page_range spec1 total = parse_page_range spec2 total.
Proof.
  intros Hsame. unfold parse_page_range.
  now rewrite (parse_parts_same_tokens total _ _ Hsame).
Qed.

(** Whether a selector is accepted does not depend on the page count. *)
Lemma parse_page_range_rejects spec total total' :
  parse_page_range spec total = Raise ValueError ->
  parse_page_range spec total' = Raise ValueError.
Proof.
  unfold parse_page_range. intros H.
  destruct (parse_parts total ∅ (split (chr ",") spec)) as [?|e|] eqn:E;
    try discriminate.
  assert (e = ValueError) as -> by (simpl in H; congruence).
  apply parse_parts_rejects in E as (part & Hin & Hp).
  apply (parse_part_rejects _ _ total' ∅) in Hp.
  assert (E' : parse_parts total' ∅ (split (chr ",") spec) = Raise ValueError).
  { apply parse_parts_rejects. eauto. }
  now rewrite E'.
Qed.

(** With fewer pages the selection is the larger one, cut. *)
Lemma parse_page_range_cut spec total total' pages' :
  total <= total' ->
  parse_page_range spec total' = Ok pages' ->
  parse_page_range spec total = Ok (filter (fun p => p <= total) pages').
Proof.
  intros Hle H'.
  destruct (parse_page_range_cases spec total) as [[pages H]|H].
  2:{ apply (parse_page_range_rejects _ _ total') in H. congruence. }
  rewrite H. f_equal.
  apply parse_page_range_spec in H as [Hs H], H' as [Hs' H'].
  apply strict_sorted_ext; [exact Hs|now apply strict_filter|].
  intros p. rewrite list_elem_of_filter, H, H'. split.
  - intros (token & Hin & Hc). apply (contributes_cut _ total') in Hc as [Hc Hp]; eauto.
  - intros [Hp (token & Hin & Hc)]. exists token. split; [exact Hin|].
    apply (contributes_cut _ total'); auto.
Qed.

End PagesMore.

(** ** What the bracket search finds *)

Module BracketFacts.
Import Json Repair FenceFacts.

Lemma bracketed_recovered raw pre mid post v :
  strip_fences raw = pre ++ chr "[" :: mid ++ chr "]" :: post ->
  chr "[" ∉ pre -> chr "]" ∉ post ->
  json_loads (strip_fences raw) = Raise JSONDecodeError ->
  json_loads (chr "[" :: mid ++ [chr "]"]) = Ok v ->
  parse_bbox_response raw = Ok v.
Proof.
  intros Htext Hpre Hpost Hfail Hok.
  rewrite (RepairFacts.parse_bbox_response_undecodable _ Hfail).
  unfold spec_step3. rewrite Htext, (search_brackets_found _ _ _ Hpre Hpost), Hok.
  destruct (JsonFacts.json_loads_bracket _ _ Hok) as [l ->]. reflexivity.
Qed.

Lemma bracketed_rejected raw pre mid post :
  strip_fences raw = pre ++ chr "[" :: mid ++ chr "]" :: post ->
  chr "[" ∉ pre -> chr "]" ∉ post ->
  json_loads (strip_fences raw) = Raise JSONDecodeError ->
  json_loads (chr "[" :: mid ++ [chr "]"]) = Raise JSONDecodeError ->
  parse_bbox_response raw = Ok (JList [fallback raw]).
Proof.
  intros Htext Hpre Hpost Hfail Hbad.
  rewrite (RepairFacts.parse_bbox_response_undecodable _ Hfail).
  unfold spec_step3. now rewrite Htext, (search_brackets_found _ _ _ Hpre Hpost), Hbad.
Qed.

End BracketFacts.

(** ** The conversation *)

Module TalkFacts.
Import Stream Json Repair Ask.

Section Talk.

Variable create : list json -> list ChatCompletionChunk.
Variables img_b64 mime : str.

Lemma history_before_app requests more i :
  i <= length requests ->
  history_before create (requests ++ more) i = history_before create requests i.
Proof.
  destruct i as [|j]; [reflexivity|]. intros Hj.
  cbn [history_before]. now rewrite lookup_app_l by lia.
Qed.

Lemma turns_inv_start :
  turns_inv create img_b64 mime [] [message "system" (JStr BATCH_SYSTEM)] true [].
Proof.
  repeat split. intros i r H. now rewrite lookup_nil in H.
Qed.

Lemma turns_inv_step qs messages first_turn requests q :
  turns_inv create img_b64 mime qs messages first_turn requests ->
  let r := messages ++ [message "user" (user_content first_turn img_b64 mime q)] in
  turns_inv create img_b64 mime (qs ++ [q]) (r ++ [answer_to create r]) false
            (requests ++ [r]).
Proof.
  intros (Hlen & Hft & Hms & Hreq) r.
  assert (Hlast : (requests ++ [r]) !! length requests = Some r)
    by now apply list_lookup_middle.
  split; [rewrite !length_app; simpl; lia|].
  split; [rewrite length_app, Nat.add_1_r; reflexivity|].
  split.
  { rewrite length_app, Nat.add_1_r. cbn [history_before]. now rewrite Hlast. }
  intros i r0 Hi.
  destruct (decide (i < length requests)) as [Hlt|Hge].
  - rewrite lookup_app_l in Hi by exact Hlt.
    destruct (Hreq i r0 Hi) as (q0 & Hq0 & Hr0).
    exists q0. split; [rewrite lookup_app_l by lia; exact Hq0|].
    now rewrite history_before_app by lia.
  - assert (i = length requests) as ->.
    { apply lookup_lt_Some in Hi. rewrite length_app in Hi. simpl in Hi. lia. }
    rewrite Hlast in Hi. inversion Hi; subst r0.
    exists q. split; [apply list_lookup_middle; lia|].
    rewrite history_before_app by lia. unfold r. now rewrite <- Hms, <- Hft.
Qed.

(** The loop keeps the invariant, whatever is typed. *)
Lemma turns_keeps inputs : forall qs messages first_turn requests,
  turns_inv create img_b64 mime qs messages first_turn requests ->
  exists first_turn',
    turns_inv create img_b64 mime (qs ++ asked inputs)
              (fst (turns create img_b64 mime messages first_turn inputs requests))
              first_turn'
              (snd (turns create img_b64 mime messages first_turn inputs requests)).
Proof.
  induction inputs as [|line inputs IH]; intros qs messages first_turn requests Hinv.
  - simpl. rewrite app_nil_r. eauto.
  - cbn [turns asked]. destruct (leaves (strip line)).
    + simpl. rewrite app_nil_r. eauto.
    + apply (turns_inv_step _ _ _ _ (strip line)) in Hinv.
      apply IH in Hinv. now rewrite <- app_assoc in Hinv.
Qed.

Lemma run_interactive_inv inputs :
  exists first_turn,
    turns_inv create img_b64 mime (asked inputs)
              (fst (run_interactive create img_b64 mime inputs)) first_turn
              (snd (run_interactive create img_b64 mime inputs)).
Proof. apply (turns_keeps inputs [] _ true []), turns_inv_start. Qed.

(** Whatever follows a line that leaves is not read. *)
Lemma turns_leave pre line post : forall messages first_turn requests,
  leaves (strip line) = true ->
  turns create img_b64 mime messages first_turn (pre ++ line :: post) requests
  = turns create img_b64 mime messages first_turn pre requests.
Proof.
  induction pre as [|l pre IH]; intros messages first_turn requests Hq.
  - cbn [app turns]. now rewrite Hq.
  - cbn [app turns]. destruct (leaves (strip l)); [reflexivity|]. now apply IH.
Qed.

(** *** The shape of a request *)

Lemma concat_repeat_snoc {A} (x : list A) n :
  concat (repeat x n) ++ x = concat (repeat x (S n)).
Proof.
  induction n as [|n IH]; simpl; [now rewrite app_nil_r|].
  rewrite <- app_assoc. f_equal. exact IH.
Qed.

Lemma repeat_snoc2 {A} (x : A) n : repeat x (2 * n) ++ [x; x] = repeat x (2 * S n).
Proof.
  replace (2 * S n) with (2 * n + 2) by lia.
  now rewrite repeat_app.
Qed.

Lemma request_shape qs messages first_turn requests :
  turns_inv create img_b64 mime qs messages first_turn requests ->
  forall i r,
    requests !! i = Some r ->
    map has_image r = false :: true :: repeat false (2 * i)
    /\ map role_of r
       = Some (JStr (lit "system")) :: Some (JStr (lit "user"))
         :: concat (repeat [Some (JStr (lit "assistant")); Some (JStr (lit "user"))] i).
Proof.
  intros (Hlen & Hft & Hms & Hreq) i. induction i as [|j IH]; intros r Hr.
  - destruct (Hreq 0 r Hr) as (q & _ & ->). split; reflexivity.
  - destruct (Hreq (S j) r Hr) as (q & _ & ->).
    assert (Hj : j < length requests) by (apply lookup_lt_Some in Hr; lia).
    apply lookup_lt_is_Some in Hj as [p Hp].
    destruct (IH p Hp) as [Himg Hrole].
    cbn [history_before]. rewrite Hp.
    rewrite <- app_assoc, !map_app, Himg, Hrole. split.
    + rewrite <- repeat_snoc2. reflexivity.
    + rewrite <- concat_repeat_snoc. reflexivity.
Qed.

End Talk.

(** *** The lines of the batch prompt *)

Lemma split_join sep parts :
  parts <> [] ->
  Forall (fun p => sep ∉ p) parts ->
  split sep (join [sep] parts) = parts.
Proof.
  induction parts as [|p parts IH]; [congruence|]. intros _ Hall.
  inversion Hall as [|? ? Hp Hparts]; subst.
  destruct parts as [|p' parts].
  - simpl. now apply FenceFacts.split_plain.
  - rewrite FenceFacts.join_cons by discriminate. cbn [app].
    rewrite FenceFacts.split_first by exact Hp.
    rewrite IH; [reflexivity|discriminate|exact Hparts].
Qed.

Lemma contains_false c s : contains c s = false -> c ∉ s.
Proof.
  intros H Hin. apply PagesFacts.contains_elem in Hin. congruence.
Qed.

Lemma build_batch_prompt_lines questions :
  Forall (fun q => LF ∉ q) questions ->
  split LF (build_batch_prompt questions)
  = prompt_header
    ++ map (fun iq => str_int (fst iq) ++ lit ". " ++ snd iq) (enumerate questions 1).
Proof.
  intros Hq. unfold build_batch_prompt. apply split_join.
  - discriminate.
  - apply Forall_app. split.
    + repeat constructor; apply contains_false; vm_compute; reflexivity.
    + generalize 1%Z. induction Hq as [|q questions Hno _ IH]; intros start.
      * constructor.
      * cbn [enumerate map]. constructor; [|apply IH].
        cbn [fst snd]. rewrite !elem_of_app. intros [H|[H|H]].
        -- now apply AskFacts.str_int_no_LF in H.
        -- revert H. apply contains_false. vm_compute. reflexivity.
        -- now apply Hno.
Qed.

End TalkFacts.

(** * The claims of the specification *)

Import Json Fill Repair Pages Stream Main.

(** ** ChunkResponseRepairer *)









(** ** FillZoneNormalizer *)

(** C6, as stated, fails: the placeholder that replaces the dots joins the
    underscore before it, and the second pass collapses the four
    underscores. *)
Lemma normalize_not_idempotent :
  normalize_fill_zones (lit "_....") = lit "____"
  /\ normalize_fill_zones (normalize_fill_zones (lit "_....")) = lit "___"
  /\ normalize_fill_zones (normalize_fill_zones (lit "_...."))
     <> normalize_fill_zones (lit "_....").
Proof. vm_compute. repeat split. discriminate. Qed.

(** C6, amended — [normalize(normalize(s)) = normalize(s)] for every string
    [s] in which no run of four or more identical fill characters stands
    next to an underscore or next to another such run. *)
Theorem normalize_idempotent_when_isolated (s : str) :
  isolated (runs s) = true ->
  normalize_fill_zones (normalize_fill_zones s) = normalize_fill_zones s.
Proof. apply FillFacts.isolated_fixed. Qed.

Lemma normalize_idempotent_when_isolated_witness :
  normalize_fill_zones (normalize_fill_zones (lit "Name...........: John"))
  = normalize_fill_zones (lit "Name...........: John").
Proof.
  apply (normalize_idempotent_when_isolated (lit "Name...........: John")).
  vm_compute. reflexivity.
Defined.

(** C7 — The normaliser replaces each maximal run of four or more identical
    characters among [.], [-] and [_] by [___] and copies everything else
    ([runs s] being the maximal runs of [s]: non-empty, neighbours differing,
    and spelling [s]); a string without four consecutive identical fill
    characters is unchanged; and
    [normalize("Name...........: John") = "Name___: John"]. *)
Theorem normalize_collapses_fill_zones (s : str) :
  (expand (runs s) = s /\ maximal (runs s))
  /\ normalize_fill_zones s
     = flat_map (fun r => if is_fill (fst r) && (4 <=? snd r)
                          then lit "___" else repeat (fst r) (snd r))
                (runs s)
  /\ (~ has_fill_run s -> normalize_fill_zones s = s)
  /\ normalize_fill_zones (lit "Name...........: John") = lit "Name___: John".
Proof.
  split; [split; [apply FillFacts.expand_runs|apply FillFacts.maximal_runs]|].
  split; [apply FillFacts.normalize_is_spec|].
  split; [apply FillFacts.no_fill_run_fixed|].
  vm_compute. reflexivity.
Qed.

Lemma normalize_collapses_fill_zones_witness :
  normalize_fill_zones (lit "a...b--c_") = lit "a...b--c_".
Proof.
  apply (proj1 (proj2 (proj2 (normalize_collapses_fill_zones (lit "a...b--c_"))))).
  intros H. apply FillFacts.fill_run_shrinks in H. vm_compute in H. lia.
Defined.

(** C10 — The normaliser never lengthens its input. *)
Theorem normalize_never_lengthens (s : str) :
  length (normalize_fill_zones s) <= length s.
Proof. apply FillFacts.length_normalize. Qed.

(** ** PageRangeResolver *)

(** C4 — Whenever the resolver returns, its result is the duplicate-free
    ascending list of everything the comma-separated tokens contribute: a
    hyphenated token [start-end] the inclusive range from [start] to
    [min(end, total)], only the end being clamped, and a plain integer [p]
    itself exactly when [1 <= p <= total].  Without a selector the selection
    is the full range from 1 to [total].  In particular
    [resolve("2,4,7-9", 10) = [2,4,7,8,9]], [resolve("1-5", 3) = [1,2,3]]
    and [resolve("2,2,1-3", 5) = [1,2,3]]. *)
Theorem parse_page_range_resolves :
  (forall spec total pages,
      parse_page_range spec total = Ok pages ->
      StronglySorted Z.lt pages
      /\ forall p, p ∈ pages <->
                   exists token, token ∈ split (chr ",") spec
                                 /\ contributes total (strip token) p)
  /\ (forall total,
        exists pages,
          page_nums None total = Ok pages
          /\ StronglySorted Z.lt pages
          /\ forall p, p ∈ pages <-> (1 <= p <= total)%Z)
  /\ parse_page_range (lit "2,4,7-9") 10 = Ok [2; 4; 7; 8; 9]%Z
  /\ parse_page_range (lit "1-5") 3 = Ok [1; 2; 3]%Z
  /\ parse_page_range (lit "2,2,1-3") 5 = Ok [1; 2; 3]%Z
  /\ page_nums None 5 = Ok [1; 2; 3; 4; 5]%Z.
Proof.
  split; [apply PagesFacts.parse_page_range_spec|].
  split; [|vm_compute; repeat split; reflexivity].
  intros total. exists (range 1 (total + 1)).
  split; [reflexivity|]. split; [apply PagesFacts.range_strict|].
  intros p. rewrite PagesFacts.elem_of_range. lia.
Qed.

Lemma parse_page_range_resolves_witness :
  StronglySorted Z.lt [2; 4; 7; 8; 9]%Z
  /\ forall p, p ∈ [2; 4; 7; 8; 9]%Z <->
               exists token, token ∈ split (chr ",") (lit "2,4,7-9")
                             /\ contributes 10 (strip token) p.
Proof.
  apply (proj1 parse_page_range_resolves (lit "2,4,7-9") 10%Z).
  vm_compute. reflexivity.
Defined.

(** C5 — The invariant of PageSelection fails on the code: the start of a
    range is not checked, so the selector [0-3] puts page 0, which is not
    within [[1, total]], into the selection. *)
Theorem parse_page_range_zero_start :
  parse_page_range (lit "0-3") 5 = Ok [0; 1; 2; 3]%Z
  /\ ~ (1 <= 0 <= 5)%Z.
Proof. split; [vm_compute; reflexivity|lia]. Qed.

(** ** StreamAggregator *)

(** C8 — The aggregator returns the concatenation of all present text
    deltas in arrival order; it writes the truncation warning exactly when
    the most recently observed terminal reason is [length]; and a stream
    whose last terminal reason is [stop], or that has none, produces no
    warning (and, as every stream, a result). *)
Theorem ocr_image_base64_aggregates (stream : list ChatCompletionChunk) (max_tokens : Z) :
  well_formed stream ->
  snd (ocr_image_base64 stream max_tokens) = concat (omap text_delta stream)
  /\ (fst (ocr_image_base64 stream max_tokens) = [TruncationWarning max_tokens]
      <-> last_reason stream = Some (lit "length"))
  /\ (last_reason stream = Some (lit "stop") \/ last_reason stream = None ->
      fst (ocr_image_base64 stream max_tokens) = []).
Proof.
  intros Hwf. rewrite (StreamFacts.ocr_image_base64_spec _ _ Hwf). cbn [fst snd].
  split; [reflexivity|].
  destruct (decide (last_reason stream = Some (lit "length"))) as [E|E].
  - split; [tauto|]. rewrite E. intros [?|?]; discriminate.
  - split; [|reflexivity]. split; [discriminate|contradiction].
Qed.

Lemma ocr_image_base64_aggregates_witness :
  let chunk d r := {| choices := [ {| delta := {| content := d |}; finish_reason := r |} ] |} in
  let stream := [chunk (Some (lit "Hel")) None; {| choices := [] |};
                 chunk (Some (lit "lo")) None; chunk None (Some (lit "length"))] in
  snd (ocr_image_base64 stream 8192) = lit "Hello"
  /\ fst (ocr_image_base64 stream 8192) = [TruncationWarning 8192].
Proof.
  intros chunk stream.
  assert (Hwf : well_formed stream) by (repeat constructor; discriminate).
  destruct (ocr_image_base64_aggregates stream 8192 Hwf) as (Htext & Hwarn & _).
  split.
  - rewrite Htext. reflexivity.
  - apply Hwarn. reflexivity.
Defined.

(** ** DocumentAssembler *)

(** C9 — With exactly one page result the json output is that page's chunk
    sequence serialised directly, a bare array without the
    [source]/[regions] envelope; with two or more it is the serialised array
    of the [{source, regions}] objects, one per page, in the order of the
    pages. *)
Theorem main_json_assembles (json_dumps : json -> str) :
  (forall label raw output,
      main_json json_dumps [(label, raw)] = Ok output ->
      exists chunks,
        page_regions raw = Ok (JList chunks)
        /\ output = json_dumps (JList chunks))
  /\ (forall pages output,
        2 <= length pages ->
        main_json json_dumps pages = Ok output ->
        exists entries,
          output = json_dumps (JList entries)
          /\ Forall2 (fun page entry =>
                        exists chunks,
                          page_regions (snd page) = Ok (JList chunks)
                          /\ entry = JDict [(lit "source", JStr (fst page));
                                            (lit "regions", JList chunks)])
                     pages entries).
Proof.
  split.
  - intros label raw output H. unfold main_json in H.
    apply ResFacts.bind_Ok in H as (results & Hp & H).
    apply MainFacts.process_pages_spec in Hp as (entries & -> & Hes).
    inversion Hes as [|? entry ? ? (chunks & Hr & ->) Hnil]; subst.
    inversion Hnil; subst. cbn in H. inversion H; subst. eauto.
  - intros pages output Hlen H. unfold main_json in H.
    apply ResFacts.bind_Ok in H as (results & Hp & H).
    apply MainFacts.process_pages_spec in Hp as (entries & -> & Hes).
    exists entries. split; [|exact Hes].
    pose proof (Forall2_length _ _ _ Hes) as Hl. cbn [app] in H.
    destruct entries as [|e1 [|e2 entries]]; cbn [length] in Hl; try lia.
    unfold format_json in H. destruct e1; now inversion H.
Qed.

Lemma main_json_assembles_witness :
  let dumps := fun j => match j with JList l => [N.of_nat (length l)] | _ => [] end in
  (exists chunks,
      page_regions (jtext "[{'text':'Name.....','bbox':null}]") = Ok (JList chunks)
      /\ main_json dumps [(lit "page 1", jtext "[{'text':'Name.....','bbox':null}]")]
         = Ok (dumps (JList chunks)))
  /\ (exists entries,
        main_json dumps [(lit "page 1", jtext "[]"); (lit "page 2", lit "hello world")]
        = Ok (dumps (JList entries))
        /\ length entries = 2).
Proof.
  intros dumps. split.
  - destruct (proj1 (main_json_assembles dumps) (lit "page 1")
                (jtext "[{'text':'Name.....','bbox':null}]") [1%N]) as (chunks & Hc & Ho).
    + vm_compute. reflexivity.
    + exists chunks. split; [exact Hc|]. rewrite <- Ho. vm_compute. reflexivity.
  - destruct (proj2 (main_json_assembles dumps)
                [(lit "page 1", jtext "[]"); (lit "page 2", lit "hello world")] [2%N])
      as (entries & Ho & Hes).
    + simpl. lia.
    + vm_compute. reflexivity.
    + exists entries. split.
      * rewrite <- Ho. vm_compute. reflexivity.
      * apply Forall2_length in Hes. simpl in Hes. lia.
Defined.

(** * Further properties of the code *)

Import Clean Ask Regions.

(** ** The text branch of [main] (ocr.py, lines 349-353) *)

(** X1 — Whatever the model returned for a page, what the text format keeps
    of it holds no tag: nowhere a [<], one or more characters other than
    [>], and a [>].  The tags are replaced at the first step and no later
    step (collapsing spaces, stripping, normalising fill zones) brings one
    back. *)
Theorem text_output_holds_no_tag (raw : str) :
  ~ has_tag (strip_tags raw) /\ ~ has_tag (clean_text raw).
Proof.
  split; [apply CleanFacts.strip_tags_no_tag|apply TagFacts.clean_text_no_tag].
Qed.

(** X2 — What the text format keeps of a page never holds two consecutive
    spaces. *)
Theorem text_output_holds_no_double_space (raw : str) :
  ~ double_space (clean_text raw).
Proof. apply CleanFacts.clean_text_unspaced. Qed.

(** X3 — What the text format keeps of a page neither begins nor ends with
    a white-space character. *)
Theorem text_output_is_trimmed (raw : str) (c : char) :
  head (clean_text raw) = Some c \/ last (clean_text raw) = Some c ->
  isspace c = false.
Proof. apply CleanFacts.clean_text_ends. Qed.

Lemma text_output_is_trimmed_witness :
  clean_text (lit "  <b>Hi</b> there  ") = lit "Hi there"
  /\ isspace (chr "H") = false.
Proof.
  split; [vm_compute; reflexivity|].
  apply (text_output_is_trimmed (lit "  <b>Hi</b> there  ") (chr "H")).
  left. vm_compute. reflexivity.
Defined.

(** X4 — The safety net leaves tidy text alone: a page without [<], without
    two consecutive spaces, without white space at either end and without a
    run of four identical fill characters goes through the text branch
    unchanged. *)
Theorem tidy_text_passes_unchanged (raw : str) :
  chr "<" ∉ raw ->
  ~ double_space raw ->
  (forall c, head raw = Some c \/ last raw = Some c -> isspace c = false) ->
  ~ has_fill_run raw ->
  clean_text raw = raw.
Proof. apply CleanMore.clean_text_fixed. Qed.

Lemma tidy_text_passes_unchanged_witness :
  clean_text (lit "Name: John") = lit "Name: John".
Proof.
  apply (tidy_text_passes_unchanged (lit "Name: John")).
  - apply TalkFacts.contains_false. vm_compute. reflexivity.
  - intros H. apply CleanFacts.spaced_double in H. vm_compute in H. discriminate.
  - intros c [H|H]; vm_compute in H; inversion H; reflexivity.
  - intros H. apply FillFacts.fill_run_shrinks in H. vm_compute in H. lia.
Defined.

(** ** The page selector (ocr.py, lines 83-96; ocr_pdf.py, lines 23-36) *)

(** X5 — Every page of a selection lies between 0 and [total]: the end of a
    range is clamped, and a start cannot be negative, since a token with a
    minus sign is read as a range. *)
Theorem selection_between_zero_and_total (spec : str) (total : Z) (pages : list Z) :
  parse_page_range spec total = Ok pages ->
  forall p, p ∈ pages -> (0 <= p <= total)%Z.
Proof. apply PagesFacts.parse_page_range_bounds. Qed.

Lemma selection_between_zero_and_total_witness :
  parse_page_range (lit "0-7") 3 = Ok [0; 1; 2; 3]%Z /\ (0 <= 3 <= 3)%Z.
Proof.
  split; [vm_compute; reflexivity|].
  apply (selection_between_zero_and_total (lit "0-7") 3 [0; 1; 2; 3]%Z).
  - vm_compute. reflexivity.
  - do 3 apply list_elem_of_further. apply list_elem_of_here.
Defined.

(** X6 — Neither the order nor the repetition of the tokens matters: two
    selectors with the same set of comma-separated tokens give the same
    result, a selection or the same error. *)
Theorem selection_ignores_token_order (spec1 spec2 : str) (total : Z) :
  (forall t, t ∈ split (chr ",") spec1 <-> t ∈ split (chr ",") spec2) ->
  parse_page_range spec1 total = parse_page_range spec2 total.
Proof. apply PagesMore.parse_page_range_same_tokens. Qed.

Lemma selection_ignores_token_order_witness :
  parse_page_range (lit "7-9,2") 10 = parse_page_range (lit "2,7-9,2") 10.
Proof.
  apply (selection_ignores_token_order (lit "7-9,2") (lit "2,7-9,2") 10).
  intros t.
  change (split (chr ",") (lit "7-9,2")) with [lit "7-9"; lit "2"].
  change (split (chr ",") (lit "2,7-9,2")) with [lit "2"; lit "7-9"; lit "2"].
  rewrite !elem_of_cons, elem_of_nil. tauto.
Defined.

(** X7 — With fewer pages the selection is the one of the longer document
    cut at the page count: for [total <= total'], the pages selected out of
    [total] are those selected out of [total'] that are at most [total]. *)
Theorem selection_is_cut_at_total (spec : str) (total total' : Z) (pages' : list Z) :
  (total <= total')%Z ->
  parse_page_range spec total' = Ok pages' ->
  parse_page_range spec total = Ok (filter (fun p => (p <= total)%Z) pages').
Proof. apply PagesMore.parse_page_range_cut. Qed.

Lemma selection_is_cut_at_total_witness :
  parse_page_range (lit "2,4,7-9") 8
  = Ok (filter (fun p => (p <= 8)%Z) [2; 4; 7; 8; 9]%Z).
Proof.
  apply (selection_is_cut_at_total (lit "2,4,7-9") 8 10 [2; 4; 7; 8; 9]%Z).
  - lia.
  - vm_compute. reflexivity.
Defined.

(** X8 — Whether a selector is rejected does not depend on the number of
    pages: one that raises [ValueError] for one page count raises it for
    every page count. *)
Theorem rejection_ignores_total (spec : str) (total total' : Z) :
  parse_page_range spec total = Raise ValueError ->
  parse_page_range spec total' = Raise ValueError.
Proof. apply PagesMore.parse_page_range_rejects. Qed.

Lemma rejection_ignores_total_witness :
  parse_page_range (lit "1,x") 100 = Raise ValueError.
Proof.
  apply (rejection_ignores_total (lit "1,x") 0 100).
  vm_compute. reflexivity.
Defined.

(** ** Fences and brackets (ocr.py, lines 209-218 and 248-257; ask.py,
    lines 104-110) *)

(** X9 — A payload in a markdown fence comes out as it went in: for white
    space [ws1] and [ws2], a language tag without a line feed and any
    [body], the fence-stripping step turns
    [ws1 ```lang LF body LF ``` ws2] into [body]. *)
Theorem fenced_payload_is_unwrapped (ws1 ws2 lang body : str) :
  Forall (fun c => isspace c = true) ws1 ->
  Forall (fun c => isspace c = true) ws2 ->
  LF ∉ lang ->
  strip_fences (ws1 ++ (lit "```" ++ lang ++ [LF] ++ body ++ [LF] ++ lit "```") ++ ws2)
  = body.
Proof. apply FenceFacts.strip_fences_fenced. Qed.

Lemma fenced_payload_is_unwrapped_witness :
  strip_fences ([LF] ++ (lit "```" ++ lit "json" ++ [LF]
                         ++ (lit "[1," ++ [LF] ++ lit " 2]")
                         ++ [LF] ++ lit "```") ++ lit "  ")
  = lit "[1," ++ [LF] ++ lit " 2]".
Proof.
  apply (fenced_payload_is_unwrapped [LF] (lit "  ") (lit "json")
           (lit "[1," ++ [LF] ++ lit " 2]")).
  - repeat constructor.
  - repeat constructor.
  - apply TalkFacts.contains_false. vm_compute. reflexivity.
Defined.

(** X10 — The search of last resort takes the text from the first [[] to
    the last []]: when the fence-stripped text does not decode and reads
    [pre [ mid ] post] with no [[] in [pre] and no []] in [post], the
    repairer returns what [[ mid ]] decodes to, and the chunk of last resort
    when that does not decode either. *)
Theorem bracketed_array_is_recovered (raw pre mid post : str) :
  strip_fences raw = pre ++ chr "[" :: mid ++ chr "]" :: post ->
  chr "[" ∉ pre -> chr "]" ∉ post ->
  json_loads (strip_fences raw) = Raise JSONDecodeError ->
  (forall v, json_loads (chr "[" :: mid ++ [chr "]"]) = Ok v ->
             parse_bbox_response raw = Ok v)
  /\ (json_loads (chr "[" :: mid ++ [chr "]"]) = Raise JSONDecodeError ->
      parse_bbox_response raw = Ok (JList [fallback raw])).
Proof.
  intros Htext Hpre Hpost Hfail. split.
  - intros v. now apply BracketFacts.bracketed_recovered with pre post.
  - now apply BracketFacts.bracketed_rejected with pre post.
Qed.

Lemma bracketed_array_is_recovered_witness :
  parse_bbox_response (lit "Here: [[0, 1], 2] (done)")
  = Ok (JList [JList [JInt 0; JInt 1]; JInt 2])
  /\ parse_bbox_response (lit "a [b] c") = Ok (JList [fallback (lit "a [b] c")]).
Proof.
  split.
  - destruct (bracketed_array_is_recovered
                (lit "Here: [[0, 1], 2] (done)")
                (lit "Here: ") (lit "[0, 1], 2") (lit " (done)")) as [H _].
    + vm_compute. reflexivity.
    + apply TalkFacts.contains_false. vm_compute. reflexivity.
    + apply TalkFacts.contains_false. vm_compute. reflexivity.
    + vm_compute. reflexivity.
    + apply H. vm_compute. reflexivity.
  - destruct (bracketed_array_is_recovered
                (lit "a [b] c") (lit "a ") (lit "b") (lit " c")) as [_ H].
    + vm_compute. reflexivity.
    + apply TalkFacts.contains_false. vm_compute. reflexivity.
    + apply TalkFacts.contains_false. vm_compute. reflexivity.
    + vm_compute. reflexivity.
    + apply H. vm_compute. reflexivity.
Defined.

(** ** The json branch of [main] (ocr.py, lines 343-348) *)

(** X11 — The loop over the repaired chunks needs objects: when every
    element that the repairer returned is an object the page yields as many
    chunks as were returned, and as soon as one element is not an object
    (a number, a string, a list, null) the loop raises [AttributeError]. *)
Theorem page_regions_needs_objects (raw : str) (chunks : list json) :
  parse_bbox_response raw = Ok (JList chunks) ->
  (forallb is_object chunks = true ->
   exists chunks', page_regions raw = Ok (JList chunks')
                   /\ length chunks' = length chunks)
  /\ (forallb is_object chunks = false -> page_regions raw = Raise AttributeError).
Proof.
  intros Hp. destruct (RegionMore.page_regions_outcome raw chunks Hp) as [Hok Hbad].
  split; [|exact Hbad].
  intros Hall. destruct (Hok Hall) as (chunks' & Hr & Hkept).
  exists chunks'. split; [exact Hr|].
  symmetry. exact (Forall2_length _ _ _ Hkept).
Qed.

Lemma page_regions_needs_objects_witness :
  (exists chunks', page_regions (jtext "[{'text':'A'},{'bbox':null}]") = Ok (JList chunks')
                   /\ length chunks' = 2)
  /\ page_regions (jtext "[{'text':'A'}, 7]") = Raise AttributeError.
Proof.
  split.
  - destruct (page_regions_needs_objects
                (jtext "[{'text':'A'},{'bbox':null}]")
                [JDict [(lit "text", JStr (lit "A"))]; JDict [(lit "bbox", JNull)]])
      as [H _]; [vm_compute; reflexivity|].
    apply H. reflexivity.
  - destruct (page_regions_needs_objects
                (jtext "[{'text':'A'}, 7]")
                [JDict [(lit "text", JStr (lit "A"))]; JInt 7])
      as [_ H]; [vm_compute; reflexivity|].
    apply H. reflexivity.
Defined.

(** X12 — The loop touches nothing but the [text] of a chunk: chunk by
    chunk, in order, the keys and their order stay, a [text] that is a
    string is replaced by its normalisation, a [text] of another type is
    kept, and the value of every other key is unchanged. *)
Theorem chunks_keep_their_fields (raw : str) (chunks chunks' : list json) :
  parse_bbox_response raw = Ok (JList chunks) ->
  page_regions raw = Ok (JList chunks') ->
  Forall2 region_kept chunks chunks'.
Proof.
  intros Hp Hr. unfold page_regions in Hr. rewrite Hp in Hr.
  now apply RegionMore.normalize_regions_kept.
Qed.

Lemma chunks_keep_their_fields_witness :
  Forall2 region_kept
    [JDict [(lit "bbox", JNull); (lit "text", JStr (lit "Name....."))]]
    [JDict [(lit "bbox", JNull); (lit "text", JStr (lit "Name___"))]].
Proof.
  apply (chunks_keep_their_fields (jtext "[{'bbox':null,'text':'Name.....'}]")).
  - vm_compute. reflexivity.
  - vm_compute. reflexivity.
Defined.

(** ** The stream aggregator (ocr.py, lines 191-204) *)

(** X13 — The aggregator works piece by piece: the text of a stream made
    of two parts is the text of the first followed by the text of the
    second, and the warning is decided by the second part when it carries a
    non-empty terminal reason and by the first part otherwise. *)
Theorem aggregation_of_two_parts (s1 s2 : list ChatCompletionChunk) (max_tokens : Z) :
  snd (ocr_image_base64 (s1 ++ s2) max_tokens)
  = snd (ocr_image_base64 s1 max_tokens) ++ snd (ocr_image_base64 s2 max_tokens)
  /\ fst (ocr_image_base64 (s1 ++ s2) max_tokens)
     = match last (omap (fun chunk => truthy (terminal_reason chunk)) s2) with
       | Some _ => fst (ocr_image_base64 s2 max_tokens)
       | None => fst (ocr_image_base64 s1 max_tokens)
       end.
Proof. apply StreamMore.ocr_image_base64_app. Qed.

(** ** The question script (ask.py) *)

(** X14 — The loops of ask.py that gather a streamed reply (lines 100-103
    and 160-163) compute the text that the aggregator of ocr.py returns for
    the same stream. *)
Theorem gathered_reply_is_aggregated_text (stream : list ChatCompletionChunk)
    (max_tokens : Z) :
  concat (gather stream) = snd (ocr_image_base64 stream max_tokens).
Proof. apply AskFacts.gather_text. Qed.

(** X15 — When the reply decodes to a JSON object, the output holds one
    entry per question, in the order of the questions, under the keys
    [1], [2], ... written in decimal; each entry holds the question and the
    value that the reply gives under the same key, null when the reply has
    no such key (ask.py, lines 247-250). *)
Theorem output_has_an_entry_per_question (d : list (str * json)) (questions : list str) :
  output_data (JDict d) questions
  = Ok (JDict (map (output_entry (fun key => default JNull (dict_get key d)))
                   (enumerate questions 1))).
Proof. apply AskFacts.output_data_object. Qed.

(** X16 — When the reply does not decode as JSON, [ask_batch] returns the
    object [{"error": raw}] and every answer of the output is null (ask.py,
    lines 104-114 and 247-250). *)
Theorem undecodable_reply_gives_null_answers (stream : list ChatCompletionChunk)
    (questions : list str) :
  json_loads (strip_fences (concat (gather stream))) = Raise JSONDecodeError ->
  ask_batch stream
  = Ok (JDict [(lit "error", JStr (strip_fences (concat (gather stream))))])
  /\ (results ← ask_batch stream; output_data results questions)
     = Ok (JDict (map (output_entry (fun _ => JNull)) (enumerate questions 1))).
Proof.
  intros Hfail. rewrite (AskFacts.ask_batch_undecodable _ Hfail).
  split; [reflexivity|].
  change (Ok ?a ≫= ?k) with (k a). cbv beta.
  rewrite AskFacts.output_data_object. do 2 f_equal.
  apply AskFacts.map_output_entry_ext. intros i. cbn [dict_get].
  destruct (decide (lit "error" = str_int i)) as [E|]; [|reflexivity].
  symmetry in E. now apply AskFacts.str_int_not_error in E.
Qed.

Lemma undecodable_reply_gives_null_answers_witness :
  let stream := [ {| choices := [ {| delta := {| content := Some (lit "I cannot tell.") |};
                                     finish_reason := None |} ] |} ] in
  (results ← ask_batch stream; output_data results [lit "Name?"; lit "Date?"])
  = Ok (JDict [(lit "1", JDict [(lit "question", JStr (lit "Name?")); (lit "answer", JNull)]);
               (lit "2", JDict [(lit "question", JStr (lit "Date?")); (lit "answer", JNull)])]).
Proof.
  intros stream.
  destruct (undecodable_reply_gives_null_answers stream [lit "Name?"; lit "Date?"])
    as [_ H]; [vm_compute; reflexivity|].
  rewrite H. vm_compute. reflexivity.
Defined.

(** X17 — When the reply decodes to a value that is not an object (a list,
    a string, a number, null), [ask_batch] returns it as it is, and with at
    least one question the output step raises [AttributeError] (ask.py,
    lines 104-114 and 247-250). *)
Theorem reply_that_is_no_object_raises (stream : list ChatCompletionChunk) (v : json)
    (q : str) (questions : list str) :
  json_loads (strip_fences (concat (gather stream))) = Ok v ->
  is_object v = false ->
  ask_batch stream = Ok v
  /\ (results ← ask_batch stream; output_data results (q :: questions))
     = Raise AttributeError.
Proof.
  intros Hok Hv. rewrite (AskFacts.ask_batch_decoded _ _ Hok).
  split; [reflexivity|].
  change (Ok ?a ≫= ?k) with (k a). cbv beta.
  now apply AskFacts.output_data_not_object.
Qed.

Lemma reply_that_is_no_object_raises_witness :
  let stream := [ {| choices := [ {| delta := {| content := Some (jtext "['Ann', '1970']") |};
                                     finish_reason := None |} ] |} ] in
  (results ← ask_batch stream; output_data results [lit "Name?"; lit "Born?"])
  = Raise AttributeError.
Proof.
  intros stream.
  destruct (reply_that_is_no_object_raises stream
              (JList [JStr (lit "Ann"); JStr (lit "1970")])
              (lit "Name?") [lit "Born?"]) as [_ H];
    [vm_compute; reflexivity|reflexivity|].
  exact H.
Defined.

(** X18 — When no question holds a line feed, the batch prompt splits into
    the five opening lines followed by one line per question, in order,
    each made of the number of the question in decimal, a dot, a space and
    the question (ask.py, lines 66-77); the number is the key under which
    the output step looks the answer up. *)
Theorem batch_prompt_has_a_line_per_question (questions : list str) :
  Forall (fun q => LF ∉ q) questions ->
  split LF (build_batch_prompt questions)
  = prompt_header
    ++ map (fun iq => str_int (fst iq) ++ lit ". " ++ snd iq) (enumerate questions 1).
Proof. apply TalkFacts.build_batch_prompt_lines. Qed.

Lemma batch_prompt_has_a_line_per_question_witness :
  split LF (build_batch_prompt [lit "Name?"; lit "Date?"])
  = prompt_header ++ [lit "1. Name?"; lit "2. Date?"].
Proof.
  apply (batch_prompt_has_a_line_per_question [lit "Name?"; lit "Date?"]).
  repeat constructor; apply TalkFacts.contains_false; vm_compute; reflexivity.
Defined.

(** X19 — The conversation only grows (ask.py, lines 119-166): one request
    is sent per question asked; the first request is the system prompt and
    the first question; every later request is the request before it, the
    answer to that request and the new question; and what [messages] holds
    at the end is the last request and its answer, or the system prompt
    alone when nothing was asked. *)
Theorem conversation_only_grows (create : list json -> list ChatCompletionChunk)
    (img_b64 mime : str) (inputs : list str) :
  let messages := fst (run_interactive create img_b64 mime inputs) in
  let requests := snd (run_interactive create img_b64 mime inputs) in
  length requests = length (asked inputs)
  /\ messages = history_before create requests (length requests)
  /\ forall i r,
       requests !! i = Some r ->
       exists q,
         asked inputs !! i = Some q
         /\ r = history_before create requests i
                ++ [message "user" (user_content (Nat.eqb i 0) img_b64 mime q)].
Proof.
  intros messages requests.
  destruct (TalkFacts.run_interactive_inv create img_b64 mime inputs)
    as (first_turn & Hlen & _ & Hms & Hreq).
  split; [exact Hlen|]. split; [exact Hms|exact Hreq].
Qed.

Lemma conversation_only_grows_witness :
  let create := fun messages : list json =>
    [ {| choices := [ {| delta := {| content := Some (lit "ok") |};
                         finish_reason := Some (lit "stop") |} ] |} ] in
  let inputs := [lit " Name? "; lit "Date?"; lit "Quit"; lit "Place?"] in
  let requests := snd (run_interactive create (lit "AAAA") (lit "image/png") inputs) in
  exists r q,
    requests !! 1 = Some r
    /\ asked inputs !! 1 = Some q
    /\ r = history_before create requests 1
           ++ [message "user" (user_content false (lit "AAAA") (lit "image/png") q)].
Proof.
  intros create inputs requests.
  destruct (conversation_only_grows create (lit "AAAA") (lit "image/png") inputs)
    as (_ & _ & Hreq).
  destruct (requests !! 1) as [r|] eqn:Hr; [|vm_compute in Hr; discriminate].
  destruct (Hreq 1 r Hr) as (q & Hq & Hshape).
  exists r, q. split; [reflexivity|]. split; [exact Hq|exact Hshape].
Defined.

(** X20 — The image is sent once in every request, in its second message:
    the [i]-th request has [2 * i + 2] messages, whose roles are [system],
    [user] and then [i] times [assistant], [user]; the second message
    carries the image block and no other message does. *)
Theorem image_only_in_second_message (create : list json -> list ChatCompletionChunk)
    (img_b64 mime : str) (inputs : list str) (i : nat) (r : list json) :
  snd (run_interactive create img_b64 mime inputs) !! i = Some r ->
  map has_image r = false :: true :: repeat false (2 * i)
  /\ map role_of r
     = Some (JStr (lit "system")) :: Some (JStr (lit "user"))
       :: concat (repeat [Some (JStr (lit "assistant")); Some (JStr (lit "user"))] i).
Proof.
  destruct (TalkFacts.run_interactive_inv create img_b64 mime inputs) as (first_turn & Hinv).
  apply (TalkFacts.request_shape _ _ _ _ _ _ _ Hinv).
Qed.

Lemma image_only_in_second_message_witness :
  let create := fun messages : list json =>
    [ {| choices := [ {| delta := {| content := Some (lit "ok") |};
                         finish_reason := Some (lit "stop") |} ] |} ] in
  let inputs := [lit "Name?"; lit "Date?"; lit "Place?"] in
  exists r,
    snd (run_interactive create (lit "AAAA") (lit "image/png") inputs) !! 2 = Some r
    /\ map has_image r = [false; true; false; false; false; false].
Proof.
  intros create inputs.
  destruct (snd (run_interactive create (lit "AAAA") (lit "image/png") inputs) !! 2)
    as [r|] eqn:Hr; [|vm_compute in Hr; discriminate].
  exists r. split; [reflexivity|].
  exact (proj1 (image_only_in_second_message create (lit "AAAA") (lit "image/png")
                  inputs 2 r Hr)).
Defined.

(** X21 — Nothing is read after a line that leaves: when a line, once
    stripped, is empty or is [quit], [exit] or [q] in any letter case, the
    lines after it change neither the requests sent nor the final
    [messages]. *)
Theorem nothing_is_read_after_leaving (create : list json -> list ChatCompletionChunk)
    (img_b64 mime : str) (pre post : list str) (line : str) :
  leaves (strip line) = true ->
  run_interactive create img_b64 mime (pre ++ line :: post)
  = run_interactive create img_b64 mime pre.
Proof. intros Hq. unfold run_interactive. now apply TalkFacts.turns_leave. Qed.

Lemma nothing_is_read_after_leaving_witness :
  let create := fun messages : list json =>
    [ {| choices := [ {| delta := {| content := Some (lit "ok") |};
                         finish_reason := None |} ] |} ] in
  run_interactive create (lit "AAAA") (lit "image/png")
    ([lit "Name?"] ++ lit " QUIT " :: [lit "Date?"])
  = run_interactive create (lit "AAAA") (lit "image/png") [lit "Name?"].
Proof.
  intros create.
  apply (nothing_is_read_after_leaving create (lit "AAAA") (lit "image/png")
           [lit "Name?"] [lit "Date?"] (lit " QUIT ")).
  vm_compute. reflexivity.
Defined.
